(** * cohydra testbed: remote command executor and WiFi channel set-up

    A shallow embedding of [testbed/command_executor/ssh.py]
    ([log_file], [SSHCommandExecutor.execute]) and of the physical-layer
    configuration of [testbed/channel/wifi.py] ([WiFiChannel.__init__]),
    with the properties the specification states about them. *)

From stdpp Require Import base option list strings gmap.
From Stdlib Require Import Ascii ZArith Lia.

Open Scope string_scope.
Open Scope list_scope.

(** ** Python values that cross the executor's interface *)

(** [command] is either one pre-joined string or a list of tokens; the
    variable [command] of [execute] holds both kinds during composition. *)
Inductive Command : Type :=
| CmdStr (line : string)
| CmdList (tokens : list string).

(** Exceptions that can travel through [execute] or a pump. *)
Inductive PyExn : Type :=
| ValueError (msg : string)      (* raised by the splitter *)
| TransportError                 (* [client.exec_command] failed *)
| StreamIOError                  (* reading a channel stream failed *)
| SinkWriteError.                (* the logging destination refused a line *)

(** What a call hands back: Python's [None], or a structured outcome
    carrying a completion status. *)
Inductive PyValue : Type :=
| PyNone
| PyOutcome (status : Z).

Definition Result (A : Type) : Type := PyExn + A.

Definition ret {A} (a : A) : Result A := inr a.
Definition raise {A} (e : PyExn) : Result A := inl e.
Definition bind {A B} (r : Result A) (k : A -> Result B) : Result B :=
  match r with
  | inl e => inl e
  | inr a => k a
  end.

Notation "'try!' x := r 'in' k" := (bind r (fun x => k))
  (at level 10, x name, r at level 100, k at level 200).

Definition result_map {A B} (f : A -> B) (r : Result A) : Result B :=
  try! x := r in ret (f x).

(** ** The shell-argument codec ([util], not part of the sources at hand) *)

Module Util.

Definition squote : ascii := "'"%char.
Definition dquote : ascii := "034"%char.
Definition backslash : ascii := "\"%char.

(** Characters that need no quoting: letters, digits and [_@%+=:,./-]. *)
Definition is_safe (c : ascii) : bool :=
  let n := nat_of_ascii c in
  ((97 <=? n) && (n <=? 122) || (65 <=? n) && (n <=? 90) ||
   (48 <=? n) && (n <=? 57))%nat ||
  bool_decide (c ∈ ["_"; "@"; "%"; "+"; "="; ":"; ","; "."; "/"; "-"]%char).

Fixpoint all_safe (s : string) : bool :=
  match s with
  | EmptyString => true
  | String c s' => is_safe c && all_safe s'
  end.

(** Each single quote of the token becomes [squote dquote squote dquote squote]. *)
Fixpoint escape_squotes (s : string) : string :=
  match s with
  | EmptyString => EmptyString
  | String c s' =>
      if bool_decide (c = squote)
      then String squote (String dquote (String squote (String dquote
             (String squote (escape_squotes s')))))
      else String c (escape_squotes s')
  end.

(** Modelled from the spec: the per-token quoting of the shell argument
    codec ([util.stringify_shell_arguments] is not among the sources).
    A token free of whitespace, quotes and metacharacters is left as it
    is; any other token is wrapped in single quotes. *)
Definition quote (s : string) : string :=
  match s with
  | EmptyString => "''"
  | _ => if all_safe s then s
         else String squote (escape_squotes s +:+ "'")
  end.

Fixpoint join_spaces (l : list string) : string :=
  match l with
  | [] => ""
  | [x] => x
  | x :: l' => x +:+ " " +:+ join_spaces l'
  end.

(** Modelled from the spec: [util.stringify_shell_arguments] is not among
    the sources.  It quotes each token and joins the tokens with single
    spaces; a command that already is a single pre-joined string is a
    line as it stands. *)
Definition stringify_shell_arguments (command : Command) : string :=
  match command with
  | CmdStr line => line
  | CmdList tokens => join_spaces (quote <$> tokens)
  end.

(** Splitter states: between words, inside a word, inside a quotation,
    and after an escape character (remembering where to go back to). *)
Inductive LexState : Type :=
| Between
| InWord
| InQuote (q : ascii)
| Escaped (back : LexState).

Definition is_space (c : ascii) : bool :=
  bool_decide (c ∈ [" "; "009"; "010"; "013"]%char).
Definition is_quote (c : ascii) : bool :=
  bool_decide (c = squote) || bool_decide (c = dquote).

Definition snoc_char (tok : string) (c : ascii) : string :=
  tok +:+ String c EmptyString.

(** One pass over the characters of the line; [tok] is the word being
    built and [acc] the words already finished (latest first). *)
Fixpoint lex (st : LexState) (tok : string) (acc : list string)
    (cs : string) : Result (list string) :=
  match cs with
  | EmptyString =>
      match st with
      | Between => ret (rev acc)
      | InWord => ret (rev (tok :: acc))
      | InQuote _ => raise (ValueError "No closing quotation")
      | Escaped _ => raise (ValueError "No escaped character")
      end
  | String c cs' =>
      match st with
      | Between =>
          if is_space c then lex Between "" acc cs'
          else if bool_decide (c = backslash) then lex (Escaped InWord) "" acc cs'
          else if is_quote c then lex (InQuote c) "" acc cs'
          else lex InWord (String c EmptyString) acc cs'
      | InWord =>
          if is_space c then lex Between "" (tok :: acc) cs'
          else if is_quote c then lex (InQuote c) tok acc cs'
          else if bool_decide (c = backslash) then lex (Escaped InWord) tok acc cs'
          else lex InWord (snoc_char tok c) acc cs'
      | InQuote q =>
          if bool_decide (c = q) then lex InWord tok acc cs'
          else if bool_decide (c = backslash) && bool_decide (q = dquote)
               then lex (Escaped (InQuote q)) tok acc cs'
          else lex (InQuote q) (snoc_char tok c) acc cs'
      | Escaped back =>
          let tok' :=
            match back with
            | InQuote q =>
                if bool_decide (c = backslash) || bool_decide (c = q)
                then tok else snoc_char tok backslash
            | _ => tok
            end in
          lex back (snoc_char tok' c) acc cs'
      end
  end.

(** Modelled from the spec: [util.split_shell_arguments] is not among
    the sources.  It is the inverse of stringification by
    shell-word-splitting rules: words are separated by whitespace, single
    quotes keep their content literally, double quotes allow a backslash
    before a double quote or a backslash, and a backslash outside
    quotations escapes the next character.  An unfinished quotation or
    escape is an error.  A command that already is a token list is
    returned as it is. *)
Definition split_shell_arguments (command : Command) : Result (list string) :=
  match command with
  | CmdStr line => lex Between "" [] line
  | CmdList tokens => ret tokens
  end.

End Util.

(** ** Composition of the command line ([execute], lines 30 to 45) *)

Section Compose.

(** The codec is what [execute] reaches through [util]. *)
Variable stringify_shell_arguments : Command -> string.
Variable split_shell_arguments : Command -> Result (list string).

(** The value of [command] when line 45 is reached: the branches of
    lines 31 to 43, after the first stringification of line 30. *)
Definition compose_command (sudo : bool) (command : Command)
    (user shell : option string) : Result Command :=
  let command := stringify_shell_arguments command in
  match user with
  | None =>
      match shell with
      | Some sh => ret (CmdList [sh; "-c"; command])
      | None => ret (CmdStr command)
      end
  | Some u =>
      try! parts :=
        (if sudo
         then try! command_end := split_shell_arguments (CmdStr command) in
              ret (command_end, ["sudo"; "-u"; u])
         else ret (["-c"; command], ["su"; u])) in
      let '(command_end, command) := parts in
      let command :=
        match shell with
        | Some sh => command ++ ["-s"; sh]
        | None => command
        end in
      ret (CmdList (command ++ command_end))
  end.

(** Line 45: the single command line handed to the transport. *)
Definition command_line (sudo : bool) (command : Command)
    (user shell : option string) : Result string :=
  result_map stringify_shell_arguments (compose_command sudo command user shell).

End Compose.

(** ** The world of one invocation *)

(** Severities of the [logging] module that the executor uses. *)
Inductive Level : Type := DEBUG | INFO | ERROR.

(** What iterating a channel stream yields next: a complete line, or an
    I/O error raised by the read. *)
Inductive Item : Type :=
| Line (l : string)
| Broken.

(** The two output streams of an execution channel, and with them the two
    pumps: each pump is bound to exactly one stream. *)
Inductive Stream : Type := Stdout | Stderr.

#[global] Instance Stream_eq_dec : EqDecision Stream.
Proof. solve_decision. Defined.

(** Everything outside the executor that one call of [execute] meets:
    its arguments, the [sudo] flag of the instance, whether the transport
    opens a channel, what the remote command writes and how it exits, and
    how many lines each logging destination accepts ([None]: any number). *)
Record World : Type := {
  w_sudo : bool;
  w_command : Command;
  w_user : option string;
  w_shell : option string;
  w_transport_ok : bool;
  w_exit_status : Z;
  w_stdout : list Item;
  w_stderr : list Item;
  w_stdout_capacity : option nat;
  w_stderr_capacity : option nat
}.

Definition w_stream (w : World) (p : Stream) : list Item :=
  match p with Stdout => w_stdout w | Stderr => w_stderr w end.

Definition w_capacity (w : World) (p : Stream) : option nat :=
  match p with Stdout => w_stdout_capacity w | Stderr => w_stderr_capacity w end.

(** Line 52 and 53: stdout is logged at [logging.INFO], stderr at
    [logging.ERROR]. *)
Definition level_of (p : Stream) : Level :=
  match p with Stdout => INFO | Stderr => ERROR end.

(** ** The stream pump ([log_file], lines 8 to 11) *)

(** Where a pump stands: about to enter the [with] block, in the [for]
    loop, leaving the block through the sink's exit, then through the
    stream's exit, and finished.  The last three remember the exception
    in flight, if any. *)
Inductive Phase : Type :=
| Entering
| Looping
| Releasing (e : option PyExn)
| Closing (e : option PyExn)
| Finished (e : option PyExn).

Record Pump : Type := {
  phase : Phase;
  rest : list Item;                    (* what the stream has yet to yield *)
  records : list (Level * string);     (* what the pump's sink has been given *)
  released : nat;                      (* how often the sink was released *)
  closed : nat                         (* how often the stream was closed *)
}.

Definition new_pump (stream : list Item) : Pump :=
  {| phase := Entering; rest := stream; records := []; released := 0; closed := 0 |}.

(** Modelled from the spec: [util.LogFile] is not among the sources.  The
    sink writes each line it receives as one record at the given severity;
    a destination that cannot accept a line fails the write. *)
Definition sink_accepts (capacity : option nat) (records : list (Level * string)) : bool :=
  match capacity with
  | None => true
  | Some k => bool_decide (length records < k)
  end.

(** One step of [log_file(logger, level, file, logfile)].  An exception
    in the loop leaves the [with] block through both exits, innermost
    first, and then ends the thread. *)
Definition pump_step (level : Level) (capacity : option nat) (p : Pump) : option Pump :=
  match phase p with
  | Entering =>
      Some {| phase := Looping; rest := rest p; records := records p;
              released := released p; closed := closed p |}
  | Looping =>
      match rest p with
      | [] =>
          Some {| phase := Releasing None; rest := []; records := records p;
                  released := released p; closed := closed p |}
      | Broken :: r =>
          Some {| phase := Releasing (Some StreamIOError); rest := r;
                  records := records p;
                  released := released p; closed := closed p |}
      | Line l :: r =>
          if sink_accepts capacity (records p)
          then Some {| phase := Looping; rest := r;
                       records := records p ++ [(level, l)];
                       released := released p; closed := closed p |}
          else Some {| phase := Releasing (Some SinkWriteError); rest := r;
                       records := records p;
                       released := released p; closed := closed p |}
      end
  | Releasing e =>
      Some {| phase := Closing e; rest := rest p; records := records p;
              released := S (released p); closed := closed p |}
  | Closing e =>
      Some {| phase := Finished e; rest := rest p; records := records p;
              released := released p; closed := S (closed p) |}
  | Finished _ => None
  end.

(** What the loop of lines 10 and 11 amounts to on what is left of a
    stream: the records the sink ends up with, and the exception that
    ended the loop, if any. *)
Fixpoint drain (level : Level) (capacity : option nat)
    (records : list (Level * string)) (stream : list Item)
    : list (Level * string) * option PyExn :=
  match stream with
  | [] => (records, None)
  | Broken :: _ => (records, Some StreamIOError)
  | Line l :: r =>
      if sink_accepts capacity records
      then drain level capacity (records ++ [(level, l)]) r
      else (records, Some SinkWriteError)
  end.

(** [log_file(logger, level, file, logfile)] taken as a whole, from a
    fresh sink: what the sink has received when the call is left, and the
    exception that leaves it, if any. *)
Definition log_file (level : Level) (capacity : option nat) (file : list Item)
    : list (Level * string) * option PyExn :=
  drain level capacity [] file.

(** ** The executor ([SSHCommandExecutor.execute], lines 29 to 59) *)

(** A thread object: created but not started, or started and running (or
    finished running) its pump. *)
Inductive Thread : Type :=
| NotStarted
| Started (p : Pump).

Definition finished (t : Thread) : bool :=
  match t with
  | Started p => match phase p with Finished _ => true | _ => false end
  | NotStarted => false
  end.

(** What can be observed of an invocation, in the order it happens. *)
Inductive Event : Type :=
| EvDebug (line : string)       (* [logger.debug] of the command line *)
| EvExec (line : string)        (* the channel is opened for the line *)
| EvStdinWrite (data : string)  (* input sent to the command *)
| EvStdinClose                  (* [stdin.close()] *)
| EvStart (p : Stream)          (* [start()] of a pump's thread *)
| EvFinish (p : Stream)         (* a pump's thread ends *)
| EvJoin (p : Stream)           (* [join()] of a pump's thread returns *)
| EvReturn.                     (* [execute] returns *)

#[global] Instance Event_eq_dec : EqDecision Event.
Proof. solve_decision. Defined.

(** The statement [execute] is about to run, or how it ended. *)
Inductive MainPc : Type :=
| AtCompose                     (* lines 30 to 45 *)
| AtDebug (line : string)       (* lines 46 and 47 *)
| AtExec (line : string)        (* line 48 *)
| AtStdinClose                  (* line 50 *)
| AtStartOut                    (* lines 52, 53 and 55 *)
| AtStartErr                    (* line 56 *)
| AtJoinOut                     (* line 58 *)
| AtJoinErr                     (* line 59 *)
| AtReturn                      (* end of the body *)
| Returned (v : PyValue)
| Raised (e : PyExn).

Record Sys : Type := {
  pc : MainPc;
  th_out : Thread;
  th_err : Thread;
  trace : list Event
}.

Definition thread (s : Sys) (p : Stream) : Thread :=
  match p with Stdout => th_out s | Stderr => th_err s end.

Definition set_thread (s : Sys) (p : Stream) (t : Thread) (evs : list Event) : Sys :=
  match p with
  | Stdout => {| pc := pc s; th_out := t; th_err := th_err s; trace := trace s ++ evs |}
  | Stderr => {| pc := pc s; th_out := th_out s; th_err := t; trace := trace s ++ evs |}
  end.

Definition goto (s : Sys) (next : MainPc) (evs : list Event) : Sys :=
  {| pc := next; th_out := th_out s; th_err := th_err s; trace := trace s ++ evs |}.

Definition init : Sys :=
  {| pc := AtCompose; th_out := NotStarted; th_err := NotStarted; trace := [] |}.

(** Who the scheduler lets run next. *)
Inductive Tid : Type :=
| TMain
| TPump (p : Stream).

Section Execute.

Variable stringify_shell_arguments : Command -> string.
Variable split_shell_arguments : Command -> Result (list string).
Variable w : World.

(** One statement of [execute]; [None] when the main thread cannot move:
    it has ended, or it is blocked in a [join]. *)
Definition main_step (s : Sys) : option Sys :=
  match pc s with
  | AtCompose =>
      match command_line stringify_shell_arguments split_shell_arguments
              (w_sudo w) (w_command w) (w_user w) (w_shell w) with
      | inl e => Some (goto s (Raised e) [])
      | inr line => Some (goto s (AtDebug line) [])
      end
  | AtDebug line => Some (goto s (AtExec line) [EvDebug line])
  | AtExec line =>
      if w_transport_ok w
      then Some (goto s AtStdinClose [EvExec line])
      else Some (goto s (Raised TransportError) [])
  | AtStdinClose => Some (goto s AtStartOut [EvStdinClose])
  | AtStartOut =>
      Some (goto (set_thread s Stdout (Started (new_pump (w_stdout w))) [])
              AtStartErr [EvStart Stdout])
  | AtStartErr =>
      Some (goto (set_thread s Stderr (Started (new_pump (w_stderr w))) [])
              AtJoinOut [EvStart Stderr])
  | AtJoinOut =>
      if finished (th_out s) then Some (goto s AtJoinErr [EvJoin Stdout]) else None
  | AtJoinErr =>
      if finished (th_err s) then Some (goto s AtReturn [EvJoin Stderr]) else None
  | AtReturn => Some (goto s (Returned PyNone) [EvReturn])
  | Returned _ | Raised _ => None
  end.

(** One step of a pump's thread: a step of [log_file], and the end of
    the thread when [log_file] is left, normally or by an exception. *)
Definition thread_step (p : Stream) (s : Sys) : option Sys :=
  match thread s p with
  | NotStarted => None
  | Started pm =>
      match pump_step (level_of p) (w_capacity w p) pm with
      | None => None
      | Some pm' =>
          Some (set_thread s p (Started pm')
                  (match phase pm' with Finished _ => [EvFinish p] | _ => [] end))
      end
  end.

Definition step_of (t : Tid) (s : Sys) : option Sys :=
  match t with
  | TMain => main_step s
  | TPump p => thread_step p s
  end.

(** The step relation of the invocation: some thread moves. *)
Definition step (s s' : Sys) : Prop := exists t, step_of t s = Some s'.

(** Running a schedule: a thread that cannot move when chosen is
    skipped. *)
Definition sched_step (s : Sys) (t : Tid) : Sys :=
  match step_of t s with
  | Some s' => s'
  | None => s
  end.

Definition run_from (s : Sys) (sched : list Tid) : Sys :=
  fold_left sched_step sched s.

Definition run (sched : list Tid) : Sys := run_from init sched.

(** [execute] is over: it returned or raised. *)
Definition over (s : Sys) : bool :=
  match pc s with
  | Returned _ | Raised _ => true
  | _ => false
  end.

(** A fair schedule: every thread gets its turn, [n] times over. *)
Fixpoint round_robin (n : nat) : list Tid :=
  match n with
  | O => []
  | S n' => TMain :: TPump Stdout :: TPump Stderr :: round_robin n'
  end.

(** Steps that are left at most: those of [execute], and those of each
    pump (one per item of its stream and four around the loop). *)
Definition pc_fuel (m : MainPc) : nat :=
  match m with
  | AtCompose => 9
  | AtDebug _ => 8
  | AtExec _ => 7
  | AtStdinClose => 6
  | AtStartOut => 5
  | AtStartErr => 4
  | AtJoinOut => 3
  | AtJoinErr => 2
  | AtReturn => 1
  | Returned _ | Raised _ => 0
  end.

Definition pump_fuel (p : Pump) : nat :=
  match phase p with
  | Entering => length (rest p) + 4
  | Looping => length (rest p) + 3
  | Releasing _ => 2
  | Closing _ => 1
  | Finished _ => 0
  end.

Definition thread_fuel (p : Stream) (t : Thread) : nat :=
  match t with
  | NotStarted => length (w_stream w p) + 5
  | Started pm => pump_fuel pm
  end.

Definition fuel (s : Sys) : nat :=
  pc_fuel (pc s) + thread_fuel Stdout (th_out s) + thread_fuel Stderr (th_err s).

(** How a call ends: with the exception of the composition or of the
    transport, or else by returning [None]. *)
Definition expected_result : MainPc :=
  match command_line stringify_shell_arguments split_shell_arguments
          (w_sudo w) (w_command w) (w_user w) (w_shell w) with
  | inl e => Raised e
  | inr _ => if w_transport_ok w then Returned PyNone else Raised TransportError
  end.

End Execute.

(** The executor with the codec of [util]. *)
Definition execute (w : World) (sched : list Tid) : Sys :=
  run Util.stringify_shell_arguments Util.split_shell_arguments w sched.

(** ** Ordering of events in a trace *)

(** Every occurrence of [b] has an occurrence of [a] before it. *)
Definition precedes (a b : Event) (tr : list Event) : Prop :=
  forall pre post, tr = pre ++ b :: post -> a ∈ pre.

(** Every occurrence of [a] is followed at once by [b], unless nothing has
    happened after it yet. *)
Definition next_is (a b : Event) (tr : list Event) : Prop :=
  forall pre post, tr = pre ++ a :: post -> post = [] \/ exists post', post = b :: post'.

(** ** Physical layer of the WiFi channel ([WiFiChannel.__init__], lines 143 to 153) *)

Module WiFi.

Section Phy.

(** The simulator's floating-point numbers are opaque here. *)
Variable Double : Type.

(** Attribute values of the simulator, [core.UintegerValue] and
    [core.DoubleValue]. *)
Inductive AttributeValue : Type :=
| UintegerValue (n : Z)
| DoubleValue (x : Double).

(** [helper.Set(name, value)]; the helper is, as far as the constructor
    touches it, the attributes that have been set on it. *)
Definition Set_ (name : string) (v : AttributeValue) (h : gmap string AttributeValue)
    : gmap string AttributeValue :=
  <[name := v]> h.

(** Truth value of [self.frequency], which is [None] or an integer. *)
Definition truthy (frequency : option Z) : bool :=
  match frequency with
  | None => false
  | Some f => negb (f =? 0)%Z
  end.

(** [self.wifi_phy_helper] after line 153, from the helper that
    [wifi.YansWifiPhyHelper.Default()] returned. *)
Definition wifi_phy_helper (Default : gmap string AttributeValue)
    (frequency : option Z) (channel channel_width antennas : Z)
    (tx_power : Double) : gmap string AttributeValue :=
  let h := Default in
  let h := Set_ "ChannelWidth" (UintegerValue channel_width) h in
  let h :=
    match frequency with
    | Some f =>
        if truthy frequency
        then Set_ "Frequency" (UintegerValue f) h
        else Set_ "ChannelNumber" (UintegerValue channel) h
    | None => Set_ "ChannelNumber" (UintegerValue channel) h
    end in
  let h := Set_ "Antennas" (UintegerValue antennas) h in
  let h := Set_ "MaxSupportedTxSpatialStreams" (UintegerValue antennas) h in
  let h := Set_ "MaxSupportedRxSpatialStreams" (UintegerValue antennas) h in
  let h := Set_ "TxPowerStart" (DoubleValue tx_power) h in
  let h := Set_ "TxPowerEnd" (DoubleValue tx_power) h in
  h.

End Phy.

Arguments UintegerValue {Double} n.
Arguments DoubleValue {Double} x.

(** *** Interfaces of the nodes ([WiFiChannel.__init__], lines 186 to 202) *)

(** A node as far as the constructor looks at it: its name, the
    simulator's node behind it, and whether it wants an IP stack. *)
Record Node : Type := {
  node_name : string;
  ns3_node : nat;
  wants_ip_stack : bool
}.

(** [Interface(node=node, ns3_device=ns3_device, address=address)]; the
    address is [None] or an address with the network's prefix length. *)
Record Interface : Type := {
  node : Node;
  ns3_device : nat;
  address : option (Z * Z)
}.

Section Nodes.

(** MAC addresses, and the two attributes of an interface that the
    channel reads ([Interface] is not among the sources). *)
Variable Mac : Type.
Variable mac_address : Interface -> Mac.
Variable pcap_file_name : Interface -> string.

(** Calls that change the simulator or a node, in the order made. *)
Inductive Effect : Type :=
| StackInstall (n : nat)                  (* [stack_helper.Install(node.ns3_node)] *)
| AddressAssign (device : nat) (a : Z)    (* [address_helper.Assign(...)] *)
| MacSetAddress (device : nat) (m : Mac)  (* [ns3_device.GetMac().SetAddress(...)] *)
| NodeAddInterface (n : Node) (i : Interface).  (* [node.add_interface(interface)] *)

(** What the loop works on: the simulator's nodes that have an Ipv4
    object, the addresses the address helper has yet to hand out, the
    calls made so far, and [self.interfaces]. *)
Record Setup : Type := {
  ipv4 : gset nat;
  pool : list Z;
  effects : list Effect;
  interfaces : list Interface
}.

(** The body of the loop for the node at index [i], whose device is the
    [i]-th of the devices container.  Of the simulator it takes that
    installing the stack gives a node its Ipv4 object, and that the
    address helper hands out its addresses in order; [None] when the
    helper has no address left. *)
Definition add_node (prefixlen : Z) (i : nat) (nd : Node) (st : Setup) : option Setup :=
  let device := i in
  let with_address :=
    if wants_ip_stack nd then
      let '(stack, installs) :=
        if bool_decide (ns3_node nd ∈ ipv4 st)
        then (ipv4 st, [])
        else ({[ns3_node nd]} ∪ ipv4 st, [StackInstall (ns3_node nd)]) in
      match pool st with
      | [] => None
      | ip_address :: pool' =>
          Some (stack, pool', installs ++ [AddressAssign device ip_address],
                Some (ip_address, prefixlen))
      end
    else Some (ipv4 st, pool st, [], None) in
  match with_address with
  | None => None
  | Some (stack, pool', calls, addr) =>
      let interface := {| node := nd; ns3_device := device; address := addr |} in
      Some {| ipv4 := stack;
              pool := pool';
              effects := effects st ++ calls
                         ++ [MacSetAddress device (mac_address interface);
                             NodeAddInterface nd interface];
              interfaces := interfaces st ++ [interface] |}
  end.

(** [for i, node in enumerate(nodes)], from index [i] on. *)
Fixpoint add_nodes (prefixlen : Z) (i : nat) (nodes : list Node) (st : Setup)
    : option Setup :=
  match nodes with
  | [] => Some st
  | nd :: nodes' =>
      match add_node prefixlen i nd st with
      | None => None
      | Some st' => add_nodes prefixlen (S i) nodes' st'
      end
  end.

(** Lines 186 to 202. *)
Definition install_interfaces (prefixlen : Z) (nodes : list Node) (st : Setup)
    : option Setup :=
  add_nodes prefixlen 0 nodes st.

(** The simulator's nodes on which a list of calls installs a stack. *)
Definition installs (calls : list Effect) : list nat :=
  omap (fun c => match c with StackInstall n => Some n | _ => None end) calls.

(** The MAC addresses that a list of calls sets, with their devices. *)
Definition mac_settings (calls : list Effect) : list (nat * Mac) :=
  omap (fun c => match c with MacSetAddress d m => Some (d, m) | _ => None end) calls.

(** How many of the nodes want an IP stack. *)
Definition wanting (nodes : list Node) : nat :=
  length (List.filter wants_ip_stack nodes).

(** *** Packet capture ([WiFiChannel.prepare], lines 205 to 208) *)

Definition is_absolute (p : string) : bool :=
  match p with
  | String c _ => bool_decide (c = "/"%char)
  | EmptyString => false
  end.

Fixpoint ends_with_sep (a : string) : bool :=
  match a with
  | EmptyString => false
  | String c EmptyString => bool_decide (c = "/"%char)
  | String _ a' => ends_with_sep a'
  end.

(** [os.path.join(a, p)] on a POSIX system: an absolute [p] replaces
    [a]; otherwise the two are put together with one separator between
    them, unless [a] is empty or brings its own. *)
Definition os_path_join (a p : string) : string :=
  if is_absolute p then p
  else if bool_decide (a = "") || ends_with_sep a then a +:+ p
  else a +:+ "/" +:+ p.

(** [self.wifi_phy_helper.EnablePcap(path, device, promiscuous,
    explicitFilename)]. *)
Record EnablePcap : Type := {
  pcap_path : string;
  pcap_device : nat;
  promiscuous : bool;
  explicit_filename : bool
}.

(** The calls that [prepare(simulation)] makes, in order. *)
Definition prepare (log_directory : string) (ifs : list Interface) : list EnablePcap :=
  (fun interface =>
     {| pcap_path := os_path_join log_directory (pcap_file_name interface);
        pcap_device := ns3_device interface;
        promiscuous := true;
        explicit_filename := true |}) <$> ifs.

End Nodes.

Arguments StackInstall {Mac} n.
Arguments AddressAssign {Mac} device a.
Arguments MacSetAddress {Mac} device m.
Arguments NodeAddInterface {Mac} n i.
Arguments ipv4 {Mac} _.
Arguments pool {Mac} _.
Arguments effects {Mac} _.
Arguments interfaces {Mac} _.

(** *** Data rates ([WiFiDataRate], lines 62 to 118) *)

Inductive WiFiDataRate : Type :=
| OFDM_RATE_6Mbps | OFDM_RATE_9Mbps | OFDM_RATE_12Mbps | OFDM_RATE_18Mbps
| OFDM_RATE_24Mbps | OFDM_RATE_36Mbps | OFDM_RATE_48Mbps | OFDM_RATE_54Mbps
| DSSS_RATE_1Mbps | DSSS_RATE_2Mbps | DSSS_RATE_5_5Mbps | DSSS_RATE_11Mbps
| ERP_OFDM_RATE_6Mbps | ERP_OFDM_RATE_9Mbps | ERP_OFDM_RATE_12Mbps
| ERP_OFDM_RATE_18Mbps | ERP_OFDM_RATE_24Mbps | ERP_OFDM_RATE_36Mbps
| ERP_OFDM_RATE_48Mbps | ERP_OFDM_RATE_54Mbps.

(** [data_rate.value]. *)
Definition value (r : WiFiDataRate) : string :=
  match r with
  | OFDM_RATE_6Mbps => "OfdmRate6Mbps"
  | OFDM_RATE_9Mbps => "OfdmRate9Mbps"
  | OFDM_RATE_12Mbps => "OfdmRate12Mbps"
  | OFDM_RATE_18Mbps => "OfdmRate18Mbps"
  | OFDM_RATE_24Mbps => "OfdmRate24Mbps"
  | OFDM_RATE_36Mbps => "OfdmRate36Mbps"
  | OFDM_RATE_48Mbps => "OfdmRate48Mbps"
  | OFDM_RATE_54Mbps => "OfdmRate54Mbps"
  | DSSS_RATE_1Mbps => "DsssRate1Mbps"
  | DSSS_RATE_2Mbps => "DsssRate2Mbps"
  | DSSS_RATE_5_5Mbps => "DsssRate5_5Mbps"
  | DSSS_RATE_11Mbps => "DsssRate11Mbps"
  | ERP_OFDM_RATE_6Mbps => "ErpOfdmRate6Mbps"
  | ERP_OFDM_RATE_9Mbps => "ErpOfdmRate9Mbps"
  | ERP_OFDM_RATE_12Mbps => "ErpOfdmRate12Mbps"
  | ERP_OFDM_RATE_18Mbps => "ErpOfdmRate18Mbps"
  | ERP_OFDM_RATE_24Mbps => "ErpOfdmRate24Mbps"
  | ERP_OFDM_RATE_36Mbps => "ErpOfdmRate36Mbps"
  | ERP_OFDM_RATE_48Mbps => "ErpOfdmRate48Mbps"
  | ERP_OFDM_RATE_54Mbps => "ErpOfdmRate54Mbps"
  end.

(** The remote station manager of lines 167 to 169: a constant-rate
    manager with the data rate's value as data mode and control mode. *)
Record StationManager : Type := {
  manager_type : string;
  data_mode : string;
  control_mode : string
}.

Definition SetRemoteStationManager (data_rate : WiFiDataRate) : StationManager :=
  {| manager_type := "ns3::ConstantRateWifiManager";
     data_mode := value data_rate;
     control_mode := value data_rate |}.

(** Three nodes, the second without an IP stack of its own wish. *)
Definition sample_nodes : list Node :=
  [ {| node_name := "a"; ns3_node := 10; wants_ip_stack := true |};
    {| node_name := "bridge"; ns3_node := 11; wants_ip_stack := false |};
    {| node_name := "c"; ns3_node := 12; wants_ip_stack := true |} ].

(** A simulator in which node 10 already has its stack and the address
    helper has three addresses left. *)
Definition sample_setup : Setup unit :=
  {| ipv4 := {[10]}; pool := [167772161; 167772162; 167772163]%Z;
     effects := []; interfaces := [] |}.

(** Where the loop leaves that simulator for these nodes, with prefix
    length 24 and a MAC address that says nothing. *)
Definition sample_done : Setup unit :=
  default sample_setup
    (install_interfaces unit (fun _ => tt) 24 sample_nodes sample_setup).

End WiFi.

(** ** Invariants of a run *)

Section Invariants.

Variable stringify_shell_arguments : Command -> string.
Variable split_shell_arguments : Command -> Result (list string).
Variable w : World.

(** Which threads have been started, and which have finished, where
    [execute] stands. *)
Definition started (t : Thread) : Prop := exists pm, t = Started pm.

Definition threads_inv (s : Sys) : Prop :=
  match pc s with
  | AtCompose | AtDebug _ | AtExec _ | AtStdinClose | AtStartOut | Raised _ =>
      th_out s = NotStarted /\ th_err s = NotStarted
  | AtStartErr => started (th_out s) /\ th_err s = NotStarted
  | AtJoinOut => started (th_out s) /\ started (th_err s)
  | AtJoinErr => finished (th_out s) = true /\ started (th_err s)
  | AtReturn | Returned _ => finished (th_out s) = true /\ finished (th_err s) = true
  end.

(** Events that have happened for sure when [execute] stands at a
    statement. *)
Definition happened (m : MainPc) : list Event :=
  match m with
  | AtStartErr => [EvStart Stdout]
  | AtJoinOut => [EvStart Stdout; EvStart Stderr]
  | AtJoinErr => [EvStart Stdout; EvStart Stderr; EvJoin Stdout]
  | AtReturn => [EvStart Stdout; EvStart Stderr; EvJoin Stdout; EvJoin Stderr]
  | Returned _ =>
      [EvStart Stdout; EvStart Stderr; EvJoin Stdout; EvJoin Stderr; EvReturn]
  | _ => []
  end.

Record order_inv (s : Sys) : Prop := {
  oi_close : forall l, next_is (EvExec l) EvStdinClose (trace s);
  oi_no_input : forall d, EvStdinWrite d ∉ trace s;
  oi_start : forall p q, precedes (EvStart p) (EvJoin q) (trace s);
  oi_finish : forall p, precedes (EvFinish p) (EvJoin p) (trace s);
  oi_join : forall p, precedes (EvJoin p) EvReturn (trace s);
  oi_last : forall l, last (trace s) = Some (EvExec l) -> pc s = AtStdinClose;
  oi_finished : forall p, finished (thread s p) = true -> EvFinish p ∈ trace s;
  oi_happened : forall e, e ∈ happened (pc s) -> e ∈ trace s
}.

(** A pump agrees, wherever it stands, with the loop taken as a whole;
    its sink is released once the loop is left, and its stream is
    closed after that. *)
Definition pump_inv (level : Level) (capacity : option nat)
    (stream : list Item) (pm : Pump) : Prop :=
  match phase pm with
  | Entering => pm = new_pump stream
  | Looping =>
      drain level capacity (records pm) (rest pm) = drain level capacity [] stream
      /\ released pm = 0 /\ closed pm = 0
  | Releasing e =>
      (records pm, e) = drain level capacity [] stream
      /\ released pm = 0 /\ closed pm = 0
  | Closing e =>
      (records pm, e) = drain level capacity [] stream
      /\ released pm = 1 /\ closed pm = 0
  | Finished e =>
      (records pm, e) = drain level capacity [] stream
      /\ released pm = 1 /\ closed pm = 1
  end.

(** Every started pump satisfies [pump_inv] for its own stream and sink. *)
Definition pumps_inv (s : Sys) : Prop :=
  forall p pm, thread s p = Started pm ->
    pump_inv (level_of p) (w_capacity w p) (w_stream w p) pm.

(** The line in hand is the composed command line, and a call that is
    over ended as [expected_result] says. *)
Definition line_inv (s : Sys) : Prop :=
  let line :=
    command_line stringify_shell_arguments split_shell_arguments
      (w_sudo w) (w_command w) (w_user w) (w_shell w) in
  let result :=
    expected_result stringify_shell_arguments split_shell_arguments w in
  match pc s with
  | AtCompose => True
  | AtDebug l | AtExec l => line = inr l
  | Returned _ | Raised _ => pc s = result
  | _ => result = Returned PyNone
  end
  /\ (forall l, EvExec l ∈ trace s -> line = inr l)
  /\ (forall p pm, thread s p = Started pm -> result = Returned PyNone).

End Invariants.

(** ** The elevation plan in the specification's words *)

(** Prefix of the elevation plan: ["sudo"; "-u"; user] for the sudo
    style, ["su"; user] for the switch-user style. *)
Definition spec_prefix (sudo : bool) (user : string) : list string :=
  if sudo then ["sudo"; "-u"; user] else ["su"; user].

(** Suffix of the elevation plan: the split of the stringified command
    for the sudo style, ["-c"; stringify command] for the switch-user
    style. *)
Definition spec_suffix (stringify : Command -> string)
    (split : Command -> Result (list string)) (sudo : bool) (command : Command)
    : Result (list string) :=
  if sudo then split (CmdStr (stringify command))
  else ret ["-c"; stringify command].

(** The shell flag that goes between prefix and suffix. *)
Definition spec_shell_flag (shell : option string) : list string :=
  match shell with
  | Some sh => ["-s"; sh]
  | None => []
  end.

(** ** What the specification asks of the result of a call *)

(** The caller holds a structured outcome or an exception. *)
Definition hands_back_outcome (s : Sys) : Prop :=
  (exists status, pc s = Returned (PyOutcome status)) \/ (exists e, pc s = Raised e).

(** When the call is over and a pump has ended by an exception, the call
    has raised. *)
Definition pump_failure_raised (s : Sys) : Prop :=
  forall p pm e,
    over s = true ->
    thread s p = Started pm -> phase pm = Finished (Some e) ->
    exists e', pc s = Raised e'.

(** ** Sample invocations *)

(** [execute(["echo", "hi"])] on a session whose command prints one line
    on each stream and exits with the given status. *)
Definition world_echo (status : Z) : World :=
  {| w_sudo := false; w_command := CmdList ["echo"; "hi"];
     w_user := None; w_shell := None;
     w_transport_ok := true; w_exit_status := status;
     w_stdout := [Line "hi"]; w_stderr := [Line "warning"];
     w_stdout_capacity := None; w_stderr_capacity := None |}.

(** The same call when reading standard output fails after the first of
    three lines. *)
Definition world_broken_stdout : World :=
  {| w_sudo := false; w_command := CmdList ["echo"; "hi"];
     w_user := None; w_shell := None;
     w_transport_ok := true; w_exit_status := 0;
     w_stdout := [Line "one"; Broken; Line "three"]; w_stderr := [Line "warning"];
     w_stdout_capacity := None; w_stderr_capacity := None |}.

(** Where the output pump of that call ends up. *)
Definition pump_broken_stdout : Pump :=
  {| phase := Finished (Some StreamIOError); rest := [Line "three"];
     records := [(INFO, "one")]; released := 1; closed := 1 |}.

(** A schedule that lets the error pump run ahead of the output pump. *)
Definition sched_err_first : list Tid :=
  replicate 6 TMain ++ replicate 5 (TPump Stderr) ++ replicate 6 (TPump Stdout)
  ++ replicate 3 TMain.

(** ** The main thread's events and further invariants *)

(** Events of [execute] itself, as opposed to the end of a pump's thread. *)
Definition main_event (ev : Event) : bool :=
  match ev with
  | EvFinish _ => false
  | _ => true
  end.

Definition main_events (tr : list Event) : list Event := List.filter main_event tr.

(** How often pump [p]'s thread has ended in a trace. *)
Definition finish_count (p : Stream) (tr : list Event) : nat :=
  length (List.filter (fun ev => bool_decide (ev = EvFinish p)) tr).

(** Lines 46 to 59 in the order written, for the composed line; nothing
    when the composition raised. *)
Definition canonical (line : Result string) : list Event :=
  match line with
  | inl _ => []
  | inr l =>
      [EvDebug l; EvExec l; EvStdinClose; EvStart Stdout; EvStart Stderr;
       EvJoin Stdout; EvJoin Stderr; EvReturn]
  end.

(** How many of its events [execute] has behind it where it stands. *)
Definition emitted (m : MainPc) : nat :=
  match m with
  | AtCompose | AtDebug _ => 0
  | AtExec _ | Raised _ => 1
  | AtStdinClose => 2
  | AtStartOut => 3
  | AtStartErr => 4
  | AtJoinOut => 5
  | AtJoinErr => 6
  | AtReturn => 7
  | Returned _ => 8
  end.


(** What a sink holds is a prefix of its stream's lines, and never more
    than the destination accepts; inside the loop, the stream is what
    has been logged followed by what is left. *)
Definition sink_inv (level : Level) (capacity : option nat)
    (stream : list Item) (pm : Pump) : Prop :=
  exists ls,
    records pm = (fun l => (level, l)) <$> ls
    /\ (Line <$> ls) `prefix_of` stream
    /\ match phase pm with
       | Entering | Looping => stream = (Line <$> ls) ++ rest pm
       | _ => True
       end
    /\ (forall k, capacity = Some k -> length ls <= k).

Section MoreInvariants.

Variable stringify_shell_arguments : Command -> string.
Variable split_shell_arguments : Command -> Result (list string).
Variable w : World.

(** Before the channel is open the whole trace is known, and past line 48
    the transport has accepted the composed line. *)
Definition early_inv (s : Sys) : Prop :=
  let line :=
    command_line stringify_shell_arguments split_shell_arguments
      (w_sudo w) (w_command w) (w_user w) (w_shell w) in
  match pc s with
  | AtCompose | AtDebug _ => trace s = []
  | AtExec l => trace s = [EvDebug l]
  | Raised e =>
      (line = inl e /\ trace s = [])
      \/ (exists l, line = inr l /\ e = TransportError
                   /\ w_transport_ok w = false /\ trace s = [EvDebug l])
  | _ => w_transport_ok w = true /\ exists l, line = inr l
  end.

(** The main thread's events so far are the first [emitted] of the
    canonical ones, and each pump's thread has ended once if it has
    finished and not at all otherwise. *)
Definition main_inv (s : Sys) : Prop :=
  main_events (trace s)
  = take (emitted (pc s))
      (canonical (command_line stringify_shell_arguments split_shell_arguments
                    (w_sudo w) (w_command w) (w_user w) (w_shell w)))
  /\ forall p, finish_count p (trace s) = if finished (thread s p) then 1 else 0.

End MoreInvariants.

(** [execute("echo hi")] on a session whose transport refuses the channel. *)
Definition world_no_transport : World :=
  {| w_sudo := false; w_command := CmdStr "echo hi";
     w_user := None; w_shell := None;
     w_transport_ok := false; w_exit_status := 0;
     w_stdout := [Line "hi"]; w_stderr := [];
     w_stdout_capacity := None; w_stderr_capacity := None |}.

(** A call with the sudo strategy whose command line has a quotation that
    is never closed. *)
Definition world_open_quote : World :=
  {| w_sudo := true; w_command := CmdStr "echo 'hi";
     w_user := Some "alice"; w_shell := None;
     w_transport_ok := true; w_exit_status := 0;
     w_stdout := [Line "hi"]; w_stderr := [];
     w_stdout_capacity := None; w_stderr_capacity := None |}.

(** A call whose error sink accepts one line only while the command
    writes two lines on standard error and three on standard output. *)
Definition world_full_stderr_sink : World :=
  {| w_sudo := false; w_command := CmdList ["make"; "all"];
     w_user := None; w_shell := None;
     w_transport_ok := true; w_exit_status := 2;
     w_stdout := [Line "cc a.c"; Line "cc b.c"; Line "ld"];
     w_stderr := [Line "warning 1"; Line "warning 2"];
     w_stdout_capacity := None; w_stderr_capacity := Some 1 |}.

(** * Properties *)

(** ** Composition of the command line *)

Section ComposeFacts.

Variable stringify : Command -> string.
Variable split : Command -> Result (list string).

Lemma compose_sudo command user shell :
  compose_command stringify split true command (Some user) shell
  = result_map
      (fun suffix =>
         CmdList ((["sudo"; "-u"; user]
                   ++ match shell with Some sh => ["-s"; sh] | None => [] end)
                  ++ suffix))
      (split (CmdStr (stringify command))).
Proof.
  unfold compose_command, result_map, bind, ret.
  destruct (split (CmdStr (stringify command))) as [e|toks]; [reflexivity|].
  destruct shell; reflexivity.
Qed.

Lemma compose_su command user shell :
  compose_command stringify split false command (Some user) shell
  = inr (CmdList ((["su"; user]
                   ++ match shell with Some sh => ["-s"; sh] | None => [] end)
                  ++ ["-c"; stringify command])).
Proof. destruct shell; reflexivity. Qed.

Lemma compose_no_user sudo command shell :
  compose_command stringify split sudo command None shell
  = inr (match shell with
         | Some sh => CmdList [sh; "-c"; stringify command]
         | None => CmdStr (stringify command)
         end).
Proof. destruct shell; reflexivity. Qed.

(** With a user, the code composes the elevation plan of the
    specification. *)
Lemma compose_elevation_plan sudo command user shell :
  compose_command stringify split sudo command (Some user) shell
  = result_map
      (fun suffix =>
         CmdList (spec_prefix sudo user ++ spec_shell_flag shell ++ suffix))
      (spec_suffix stringify split sudo command).
Proof.
  destruct sudo.
  - rewrite compose_sudo. unfold spec_suffix, spec_prefix, spec_shell_flag.
    destruct (split _), shell; reflexivity.
  - rewrite compose_su. destruct shell; reflexivity.
Qed.

Lemma command_line_stringifies sudo command user shell :
  command_line stringify split sudo command user shell
  = result_map stringify (compose_command stringify split sudo command user shell).
Proof. reflexivity. Qed.

End ComposeFacts.

Lemma result_map_map {A B C} (f : A -> B) (g : B -> C) (r : Result A) :
  result_map g (result_map f r) = result_map (fun x => g (f x)) r.
Proof. destruct r; reflexivity. Qed.

(** C3: with the sudo strategy, a user and no shell, the composed tokens
    are ["sudo"; "-u"; user] followed by the split of the stringified
    command (an error of the splitter is passed on); ["echo"; "hi"] for
    alice composes to ["sudo"; "-u"; "alice"; "echo"; "hi"]. *)
Theorem sudo_tokens_round_trip :
  (forall stringify split command user,
      compose_command stringify split true command (Some user) None
      = result_map (fun suffix => CmdList (["sudo"; "-u"; user] ++ suffix))
          (split (CmdStr (stringify command))))
  /\ compose_command Util.stringify_shell_arguments Util.split_shell_arguments
       true (CmdList ["echo"; "hi"]) (Some "alice") None
     = inr (CmdList ["sudo"; "-u"; "alice"; "echo"; "hi"]).
Proof.
  split.
  - intros. rewrite compose_sudo. reflexivity.
  - vm_compute. reflexivity.
Qed.

(** C6: with the switch-user strategy, a user and no shell, the composed
    tokens are ["su"; user; "-c"; stringify command]; ["echo"; "hi"] for
    bob composes to ["su"; "bob"; "-c"; "echo hi"]. *)
Theorem su_tokens :
  (forall stringify split command user,
      compose_command stringify split false command (Some user) None
      = inr (CmdList ["su"; user; "-c"; stringify command]))
  /\ compose_command Util.stringify_shell_arguments Util.split_shell_arguments
       false (CmdList ["echo"; "hi"]) (Some "bob") None
     = inr (CmdList ["su"; "bob"; "-c"; "echo hi"]).
Proof.
  split.
  - intros. rewrite compose_su. reflexivity.
  - vm_compute. reflexivity.
Qed.

(** C7: without a user, the command is wrapped as
    [shell; "-c"; stringify command] exactly when a shell is given;
    without a shell the line submitted is the stringified command itself,
    as it is for the command's tokens passed on unchanged.  ["echo"; "hi"]
    gives the line "echo hi" without a shell and "/bin/bash -c 'echo hi'"
    with the shell "/bin/bash". *)
Theorem no_user_wraps_iff_shell :
  (forall stringify split sudo command shell,
      compose_command stringify split sudo command None shell
      = inr (match shell with
             | Some sh => CmdList [sh; "-c"; stringify command]
             | None => CmdStr (stringify command)
             end))
  /\ (forall sudo command shell,
         command_line Util.stringify_shell_arguments Util.split_shell_arguments
           sudo command None shell
         = inr (match shell with
                | Some sh =>
                    Util.stringify_shell_arguments
                      (CmdList [sh; "-c"; Util.stringify_shell_arguments command])
                | None => Util.stringify_shell_arguments command
                end))
  /\ (forall sudo,
         command_line Util.stringify_shell_arguments Util.split_shell_arguments
           sudo (CmdList ["echo"; "hi"]) None None
         = inr "echo hi")
  /\ (forall sudo,
         command_line Util.stringify_shell_arguments Util.split_shell_arguments
           sudo (CmdList ["echo"; "hi"]) None (Some "/bin/bash")
         = inr "/bin/bash -c 'echo hi'").
Proof.
  split; [|split; [|split]].
  - intros. apply compose_no_user.
  - intros. rewrite command_line_stringifies, compose_no_user.
    destruct shell; reflexivity.
  - intros. rewrite command_line_stringifies, compose_no_user. reflexivity.
  - intros. rewrite command_line_stringifies, compose_no_user. reflexivity.
Qed.

(** ** Order of events *)

Lemma precedes_nil a b : precedes a b [].
Proof. intros [|? ?] post H; discriminate H. Qed.

Lemma precedes_snoc a b tr e :
  precedes a b tr -> (e = b -> a ∈ tr) -> precedes a b (tr ++ [e]).
Proof.
  intros Htr He pre post Heq.
  destruct post as [|x post _] using rev_ind.
  - apply app_inj_tail in Heq as [-> ->]. auto.
  - change (pre ++ b :: post ++ [x]) with (pre ++ (b :: post) ++ [x]) in Heq.
    rewrite app_assoc in Heq.
    apply app_inj_tail in Heq as [-> _]. eapply Htr; reflexivity.
Qed.

Lemma next_is_nil a b : next_is a b [].
Proof. intros [|? ?] post H; discriminate H. Qed.

Lemma next_is_snoc a b tr e :
  next_is a b tr -> (last tr = Some a -> e = b) -> next_is a b (tr ++ [e]).
Proof.
  intros Htr He pre post Heq.
  destruct post as [|x post _] using rev_ind; [left; reflexivity|right].
  change (pre ++ a :: post ++ [x]) with (pre ++ (a :: post) ++ [x]) in Heq.
  rewrite app_assoc in Heq.
  apply app_inj_tail in Heq as [-> ->].
  destruct post as [|y post].
  - exists []. rewrite He; [reflexivity|]. apply last_snoc.
  - destruct (Htr pre (y :: post) eq_refl) as [?|[post' Hp]]; [discriminate|].
    injection Hp as -> ->. eauto.
Qed.

Section RunFacts.

Variable stringify : Command -> string.
Variable split : Command -> Result (list string).
Variable w : World.

Local Abbreviation step_of := (step_of stringify split w).
Local Abbreviation main_step := (main_step stringify split w).
Local Abbreviation thread_step := (thread_step w).
Local Abbreviation sched_step := (sched_step stringify split w).
Local Abbreviation run_from := (run_from stringify split w).
Local Abbreviation run := (run stringify split w).
Local Abbreviation pumps_inv := (pumps_inv w).
Local Abbreviation line_inv := (line_inv stringify split w).

Lemma run_from_app s sched1 sched2 :
  run_from s (sched1 ++ sched2) = run_from (run_from s sched1) sched2.
Proof. apply fold_left_app. Qed.

Lemma run_snoc sched t : run (sched ++ [t]) = sched_step (run sched) t.
Proof. unfold run. rewrite run_from_app. reflexivity. Qed.

(** What holds at the start and is kept by every step holds after every
    schedule. *)
Lemma run_invariant (P : Sys -> Prop) :
  P init ->
  (forall s t s', P s -> step_of t s = Some s' -> P s') ->
  forall sched, P (run sched).
Proof.
  intros Hinit Hstep sched.
  induction sched as [|t sched IH] using rev_ind; [exact Hinit|].
  rewrite run_snoc. unfold sched_step.
  destruct (step_of t (run sched)) as [s'|] eqn:E; [|exact IH].
  eapply Hstep; eassumption.
Qed.

(** *** Threads and program counter *)

Lemma pump_step_finished level capacity pm pm' :
  pump_step level capacity pm = Some pm' ->
  match phase pm with Finished _ => False | _ => True end.
Proof. unfold pump_step. destruct (phase pm); [trivial..|discriminate]. Qed.


Lemma thread_step_inv p s s' :
  thread_step p s = Some s' ->
  exists pm pm',
    thread s p = Started pm /\
    pump_step (level_of p) (w_capacity w p) pm = Some pm' /\
    s' = set_thread s p (Started pm')
           (match phase pm' with Finished _ => [EvFinish p] | _ => [] end).
Proof.
  unfold thread_step.
  destruct (thread s p) as [|pm]; [discriminate|].
  destruct (pump_step _ _ pm) as [pm'|] eqn:E; [|discriminate].
  intros [= <-]. eauto.
Qed.

Lemma threads_inv_step s t s' :
  threads_inv s -> step_of t s = Some s' -> threads_inv s'.
Proof.
  intros Hinv Hstep. destruct t as [|p].
  - unfold step_of, main_step in Hstep.
    unfold threads_inv in Hinv.
    destruct (pc s); simpl in Hstep;
      repeat case_match; try discriminate;
      injection Hstep as <-; unfold threads_inv, started in *; simpl;
      intuition (eauto; try congruence).
  - apply thread_step_inv in Hstep as (pm & pm' & Hth & Hpm & ->).
    pose proof (pump_step_finished _ _ _ _ Hpm) as Hnf.
    unfold threads_inv in *.
    destruct p; simpl in *; rewrite Hth in *;
      destruct (pc s); simpl in *; unfold started in *;
      destruct (phase pm); try contradiction;
      intuition (eauto; try congruence).
Qed.

Lemma threads_inv_run sched : threads_inv (run sched).
Proof.
  apply run_invariant; [split; reflexivity|].
  intros s t s'. apply threads_inv_step.
Qed.

(** *** The trace and the program counter *)

Lemma trace_set_thread s p t evs : trace (set_thread s p t evs) = trace s ++ evs.
Proof. destruct p; reflexivity. Qed.

Lemma pc_set_thread s p t evs : pc (set_thread s p t evs) = pc s.
Proof. destruct p; reflexivity. Qed.

Lemma thread_set_thread s p t evs q :
  thread (set_thread s p t evs) q = if decide (p = q) then t else thread s q.
Proof. destruct p, q; reflexivity. Qed.

Lemma started_not_closing s p pm :
  threads_inv s -> thread s p = Started pm -> pc s <> AtStdinClose.
Proof.
  unfold threads_inv. intros Hth Hp Hpc. rewrite Hpc in Hth.
  destruct Hth as [Ho He]. destruct p; simpl in Hp; congruence.
Qed.

Lemma happened_snoc (l tr : list Event) x :
  (forall e, e ∈ l -> e ∈ tr) -> forall e, e ∈ l ++ [x] -> e ∈ tr ++ [x].
Proof.
  intros H e. rewrite !elem_of_app. intros [He|He]; [left; auto | right; exact He].
Qed.

Lemma order_inv_init : order_inv init.
Proof.
  constructor; simpl; intros;
    auto using next_is_nil, precedes_nil, not_elem_of_nil; try discriminate.
  destruct p; discriminate.
Qed.

Lemma order_inv_step s t s' :
  threads_inv s -> order_inv s -> step_of t s = Some s' -> order_inv s'.
Proof.
  intros Hth [Hc Hn Hs Hf Hj Hl Hfin Hh] Hstep. destruct t as [|p].
  - unfold step_of, main_step in Hstep.
    unfold threads_inv in Hth.
    destruct (pc s) eqn:Hpc; simpl in Hstep, Hh;
      repeat case_match; try discriminate;
      injection Hstep as <-.
    all: constructor; simpl; rewrite ?app_nil_r.
    all: try assumption.
    all: try (intros l; apply next_is_snoc; [apply Hc|];
              intros HL; apply Hl in HL; first [discriminate HL | reflexivity]).
    all: try (intros d; rewrite elem_of_app, list_elem_of_singleton;
              intros [?|?]; [eapply Hn; eassumption | discriminate]).
    all: try (intros l HL; first [ apply Hl in HL; discriminate HL
                                 | rewrite last_snoc in HL; first [discriminate HL | reflexivity] ]).
    all: try (intros p q; apply precedes_snoc; [apply Hs|];
              intros Heq; first [discriminate Heq
                                | destruct p; apply Hh; repeat constructor]).
    all: try (intros p; apply precedes_snoc; [apply Hf|];
              intros Heq; first [discriminate Heq
                                | injection Heq as <-; apply Hfin; assumption]).
    all: try (intros p; apply precedes_snoc; [apply Hj|];
              intros Heq; first [discriminate Heq
                                | destruct p; apply Hh; repeat constructor]).
    all: try (intros p Hp; apply elem_of_app; left; apply Hfin;
              destruct p; simpl in *; first [assumption | discriminate]).
    all: try (intros e He; exfalso; eapply not_elem_of_nil; exact He).
    all: match goal with
         | Hh : forall e, e ∈ ?l -> _ |- _ => apply (happened_snoc l); exact Hh
         end.
  - apply thread_step_inv in Hstep as (pm & pm' & Hp & Hpm & ->).
    pose proof (started_not_closing _ _ _ Hth Hp) as Hnc.
    assert (Hfin' : forall q,
               finished (thread (set_thread s p (Started pm')
                 (match phase pm' with Finished _ => [EvFinish p] | _ => [] end)) q) = true ->
               EvFinish q ∈ trace s ++
                 (match phase pm' with Finished _ => [EvFinish p] | _ => [] end)).
    { intros q. rewrite thread_set_thread. destruct (decide (p = q)) as [<-|Hne].
      - simpl. destruct (phase pm'); try discriminate.
        intros _. apply elem_of_app. right. apply list_elem_of_singleton. reflexivity.
      - intros Hq. apply elem_of_app. left. apply Hfin, Hq. }
    constructor; rewrite ?trace_set_thread, ?pc_set_thread; try exact Hfin';
      destruct (phase pm'); rewrite ?app_nil_r; try assumption.
    + intros l. apply next_is_snoc; [apply Hc|].
      intros HL. apply Hl in HL. contradiction.
    + intros d. rewrite elem_of_app, list_elem_of_singleton.
      intros [?|?]; [eapply Hn; eassumption | discriminate].
    + intros q r. apply precedes_snoc; [apply Hs|]. discriminate.
    + intros q. apply precedes_snoc; [apply Hf|]. discriminate.
    + intros q. apply precedes_snoc; [apply Hj|]. discriminate.
    + intros l HL. rewrite last_snoc in HL. discriminate.
    + intros ev Hev. apply elem_of_app. left. apply Hh, Hev.
Qed.

Lemma order_inv_run sched : order_inv (run sched).
Proof.
  cut (threads_inv (run sched) /\ order_inv (run sched)); [tauto|].
  apply run_invariant.
  - split; [split; reflexivity | apply order_inv_init].
  - intros s t s' [Hth Ho] Hstep.
    eauto using threads_inv_step, order_inv_step.
Qed.

(** *** Pumps *)

Lemma pump_inv_new level capacity stream :
  pump_inv level capacity stream (new_pump stream).
Proof. reflexivity. Qed.

Lemma pump_inv_step level capacity stream pm pm' :
  pump_inv level capacity stream pm ->
  pump_step level capacity pm = Some pm' ->
  pump_inv level capacity stream pm'.
Proof.
  unfold pump_inv, pump_step. intros Hinv Hstep.
  destruct (phase pm) eqn:Hph.
  - injection Hstep as <-. subst pm. simpl. auto.
  - destruct Hinv as (Hd & Hr & Hc).
    destruct (rest pm) as [|[l|] r] eqn:Hrest; simpl in Hd.
    + injection Hstep as <-. simpl. auto.
    + destruct (sink_accepts capacity (records pm)) eqn:Hacc;
        injection Hstep as <-; simpl; auto.
    + injection Hstep as <-. simpl. auto.
  - destruct Hinv as (Hd & Hr & Hc). injection Hstep as <-. simpl.
    rewrite Hr. auto.
  - destruct Hinv as (Hd & Hr & Hc). injection Hstep as <-. simpl.
    rewrite Hc. auto.
  - discriminate.
Qed.

Lemma pumps_inv_step s t s' :
  threads_inv s -> pumps_inv s -> step_of t s = Some s' -> pumps_inv s'.
Proof.
  intros Hth Hinv Hstep. destruct t as [|p].
  - unfold step_of, main_step in Hstep.
    unfold threads_inv in Hth.
    destruct (pc s) eqn:Hpc; simpl in Hstep;
      repeat case_match; try discriminate;
      injection Hstep as <-; intros [] pm'; simpl; intros Hpm';
      try (apply (Hinv Stdout); exact Hpm');
      try (apply (Hinv Stderr); exact Hpm');
      injection Hpm' as <-; apply pump_inv_new.
  - apply thread_step_inv in Hstep as (pm & pm' & Hp & Hpm & ->).
    intros q pmq. rewrite thread_set_thread.
    destruct (decide (p = q)) as [<-|Hne].
    + intros [= <-]. eapply pump_inv_step; [apply Hinv|]; eassumption.
    + apply Hinv.
Qed.

Lemma pumps_inv_run sched : pumps_inv (run sched).
Proof.
  cut (threads_inv (run sched) /\ pumps_inv (run sched)); [tauto|].
  apply run_invariant.
  - split; [split; reflexivity | intros [] pm; discriminate].
  - intros s t s' [Hth Hp] Hstep.
    eauto using threads_inv_step, pumps_inv_step.
Qed.

(** *** The command line and the result *)

Local Abbreviation the_line :=
  (command_line stringify split (w_sudo w) (w_command w) (w_user w) (w_shell w)).

Lemma line_inv_step s t s' :
  threads_inv s -> line_inv s -> step_of t s = Some s' -> line_inv s'.
Proof.
  intros Hth (Hpc & Hex & Hst) Hstep. destruct t as [|p].
  - unfold step_of, main_step in Hstep.
    unfold threads_inv in Hth.
    destruct (pc s) eqn:Hs; simpl in Hstep;
      repeat case_match; try discriminate;
      injection Hstep as <-; unfold line_inv; simpl; rewrite ?app_nil_r.
    all: unfold expected_result in *.
    all: repeat match goal with
           | H : the_line = _ |- _ => rewrite H in *
           | H : w_transport_ok w = _ |- _ => rewrite H in *
           end.
    all: (split; [try reflexivity; try assumption|split]).
    all: try assumption.
    all: try (intros l; rewrite elem_of_app, list_elem_of_singleton;
              intros [Hl|Hl]; [apply Hex, Hl | first [discriminate Hl | congruence]]).
    all: try (intros [] pm; simpl; intros Hpm; first [reflexivity | eapply Hst; eassumption]).
    all: try (intros [] pm; simpl; intros Hpm; 
              first [eapply (Hst Stdout); eassumption | eapply (Hst Stderr); eassumption]).
    all: try (intros _ _ _; exact Hpc).
    symmetry. exact Hpc.
  - apply thread_step_inv in Hstep as (pm & pm' & Hp & Hpm & ->).
    unfold line_inv. rewrite pc_set_thread, trace_set_thread.
    split; [exact Hpc|split].
    + intros l. rewrite elem_of_app. intros [Hl|Hl]; [apply Hex, Hl|].
      destruct (phase pm'); try (apply elem_of_nil in Hl; contradiction).
      apply list_elem_of_singleton in Hl. discriminate.
    + intros q pmq _. eapply Hst. eassumption.
Qed.

Lemma line_inv_run sched : line_inv (run sched).
Proof.
  cut (threads_inv (run sched) /\ line_inv (run sched)); [tauto|].
  apply run_invariant.
  - split; [split; reflexivity|].
    split; [exact I|split].
    + intros l Hl. apply elem_of_nil in Hl. contradiction.
    + intros [] pm; discriminate.
  - intros s t s' [Hth Hl] Hstep.
    eauto using threads_inv_step, line_inv_step.
Qed.

(** *** Every fair schedule brings [execute] to its end *)

Lemma pump_step_fuel level capacity pm pm' :
  pump_step level capacity pm = Some pm' -> pump_fuel pm' < pump_fuel pm.
Proof.
  unfold pump_step, pump_fuel. intros Hstep.
  destruct (phase pm); [| |..].
  - injection Hstep as <-. simpl. lia.
  - destruct (rest pm) as [|[l|] r]; [| |].
    + injection Hstep as <-. simpl. lia.
    + destruct (sink_accepts capacity (records pm));
        injection Hstep as <-; simpl; lia.
    + injection Hstep as <-. simpl. lia.
  - injection Hstep as <-. simpl. lia.
  - injection Hstep as <-. simpl. lia.
  - discriminate.
Qed.

Lemma step_fuel s t s' :
  threads_inv s -> step_of t s = Some s' -> fuel w s' < fuel w s.
Proof.
  intros Hth Hstep. destruct t as [|p].
  - unfold step_of, main_step in Hstep.
    unfold fuel. unfold threads_inv in Hth.
    destruct (pc s) eqn:Hpc; simpl in Hstep;
      repeat case_match; try discriminate;
      injection Hstep as <-; simpl;
      try lia; destruct Hth as [Ho He]; rewrite ?Ho, ?He;
      unfold pump_fuel; simpl; lia.
  - apply thread_step_inv in Hstep as (pm & pm' & Hp & Hpm & ->).
    apply pump_step_fuel in Hpm. unfold fuel.
    destruct p; simpl in *; rewrite Hp; simpl; lia.
Qed.

Lemma sched_step_fuel s t :
  threads_inv s -> fuel w (sched_step s t) <= fuel w s.
Proof.
  unfold sched_step. intros Hth.
  destruct (step_of t s) as [s'|] eqn:E; [|lia].
  apply step_fuel in E; [lia|exact Hth].
Qed.

Lemma sched_step_threads_inv s t : threads_inv s -> threads_inv (sched_step s t).
Proof.
  unfold sched_step. intros Hth.
  destruct (step_of t s) as [s'|] eqn:E; [|exact Hth].
  eapply threads_inv_step; eassumption.
Qed.

Lemma over_stable s t : over s = true -> over (sched_step s t) = true.
Proof.
  unfold sched_step, over. intros Hover.
  destruct (step_of t s) as [s'|] eqn:E; [|exact Hover].
  destruct t as [|p].
  - unfold step_of, main_step in E.
    destruct (pc s); discriminate.
  - apply thread_step_inv in E as (pm & pm' & _ & _ & ->).
    rewrite pc_set_thread. exact Hover.
Qed.

Lemma over_run_from s sched : over s = true -> over (run_from s sched) = true.
Proof.
  revert s. induction sched as [|t sched IH]; intros s Hover; [exact Hover|].
  apply IH, over_stable, Hover.
Qed.

Lemma unfinished_steps p s pm :
  thread s p = Started pm -> finished (thread s p) = false ->
  exists s', thread_step p s = Some s'.
Proof.
  unfold thread_step, finished. intros Hp. rewrite Hp.
  unfold pump_step. intros Hnf.
  destruct (phase pm); try discriminate; try (eexists; reflexivity).
  destruct (rest pm) as [|[l|] r]; try (eexists; reflexivity).
  destruct (sink_accepts _ _); eexists; reflexivity.
Qed.

(** While [execute] is not over, some thread can move. *)
Lemma progress s :
  threads_inv s -> over s = false -> exists t s', step_of t s = Some s'.
Proof.
  unfold threads_inv, over. intros Hth Hover.
  destruct (pc s) eqn:Hpc; try discriminate.
  1-6,9: exists TMain; unfold step_of, main_step;
    rewrite Hpc; repeat case_match; eexists; reflexivity.
  - destruct Hth as [[pm Ho] _].
    destruct (finished (th_out s)) eqn:Hf.
    + exists TMain. unfold step_of, main_step.
      rewrite Hpc, Hf. eexists; reflexivity.
    + exists (TPump Stdout). eapply unfinished_steps; eassumption.
  - destruct Hth as [_ [pm He]].
    destruct (finished (th_err s)) eqn:Hf.
    + exists TMain. unfold step_of, main_step.
      rewrite Hpc, Hf. eexists; reflexivity.
    + exists (TPump Stderr). eapply unfinished_steps; eassumption.
Qed.

Lemma round_fuel s :
  threads_inv s -> over s = false ->
  fuel w (run_from s [TMain; TPump Stdout; TPump Stderr]) < fuel w s.
Proof.
  intros Hth Hover. destruct (progress s Hth Hover) as (t & s' & Hstep).
  simpl.
  pose proof (sched_step_threads_inv s TMain Hth) as Hth1.
  pose proof (sched_step_threads_inv _ (TPump Stdout) Hth1) as Hth2.
  pose proof (sched_step_fuel s TMain Hth) as H1.
  pose proof (sched_step_fuel _ (TPump Stdout) Hth1) as H2.
  pose proof (sched_step_fuel _ (TPump Stderr) Hth2) as H3.
  destruct (step_of TMain s) as [s1|] eqn:E1.
  { apply step_fuel in E1 as Hlt; [|exact Hth].
    unfold sched_step in *. rewrite E1 in *. lia. }
  assert (sched_step s TMain = s) as Hs1
    by (unfold sched_step; rewrite E1; reflexivity).
  rewrite Hs1 in *.
  destruct (step_of (TPump Stdout) s) as [s2|] eqn:E2.
  { apply step_fuel in E2 as Hlt; [|exact Hth].
    unfold sched_step in *. rewrite E2 in *. lia. }
  assert (sched_step s (TPump Stdout) = s) as Hs2
    by (unfold sched_step; rewrite E2; reflexivity).
  rewrite Hs2 in *.
  destruct t as [|[]]; try congruence.
  apply step_fuel in Hstep as Hlt; [|exact Hth].
  unfold sched_step. rewrite Hstep. exact Hlt.
Qed.

Lemma round_robin_over n : forall s,
  threads_inv s -> fuel w s <= n -> over (run_from s (round_robin n)) = true.
Proof.
  induction n as [|n IH]; intros s Hth Hfuel.
  - simpl. unfold fuel in Hfuel. unfold over.
    destruct (pc s); simpl in Hfuel; try lia; reflexivity.
  - destruct (over s) eqn:Hover; [apply over_run_from, Hover|].
    change (round_robin (S n))
      with ([TMain; TPump Stdout; TPump Stderr] ++ round_robin n).
    rewrite run_from_app. apply IH.
    + simpl. auto using sched_step_threads_inv.
    + pose proof (round_fuel s Hth Hover). lia.
Qed.

(** Whatever has been scheduled so far, letting every thread have its
    turn often enough ends the call. *)
Lemma run_ends sched :
  over (run (sched ++ round_robin (fuel w (run sched)))) = true.
Proof.
  unfold run. rewrite run_from_app.
  apply round_robin_over; [apply threads_inv_run|lia].
Qed.

Lemma over_result sched :
  over (run sched) = true -> pc (run sched) = expected_result stringify split w.
Proof.
  intros Hover. destruct (line_inv_run sched) as (Hpc & _ & _).
  unfold over in Hover. destruct (pc (run sched)); try discriminate; exact Hpc.
Qed.

(** *** Schedules and the step relation *)

(** The states that schedules reach are those that the step relation
    reaches. *)
Lemma run_reaches sched : rtc (step stringify split w) init (run sched).
Proof.
  induction sched as [|t sched IH] using rev_ind; [constructor|].
  rewrite run_snoc. unfold sched_step.
  destruct (step_of t (run sched)) as [s'|] eqn:E; [|exact IH].
  eapply rtc_r; [exact IH|]. exists t. exact E.
Qed.

Lemma reached_by_run s :
  rtc (step stringify split w) init s -> exists sched, s = run sched.
Proof.
  revert s. apply rtc_ind_r.
  - exists []. reflexivity.
  - intros s1 s2 _ [t Ht] [sched ->].
    exists (sched ++ [t]). rewrite run_snoc. unfold sched_step.
    rewrite Ht. reflexivity.
Qed.

End RunFacts.

Lemma drain_lines level acc ls :
  drain level None acc (Line <$> ls) = (acc ++ ((fun l => (level, l)) <$> ls), None).
Proof.
  revert acc. induction ls as [|l ls IH]; intros acc; simpl.
  - rewrite app_nil_r. reflexivity.
  - rewrite IH, <- app_assoc. reflexivity.
Qed.

(** ** The executor *)

(** C1: in every run of [execute], whatever the schedule: the channel's
    input is closed right after the channel is opened and nothing is ever
    sent to it; both pumps are started before either of them is waited
    on; waiting on a pump ends only after that pump has finished; and
    [execute] returns only after both waits, with both pumps finished. *)
Theorem execute_event_order (w : World) (sched : list Tid) :
  (forall l, next_is (EvExec l) EvStdinClose (trace (execute w sched)))
  /\ (forall d, EvStdinWrite d ∉ trace (execute w sched))
  /\ (forall p q, precedes (EvStart p) (EvJoin q) (trace (execute w sched)))
  /\ (forall p, precedes (EvFinish p) (EvJoin p) (trace (execute w sched)))
  /\ (forall p, precedes (EvJoin p) EvReturn (trace (execute w sched)))
  /\ (forall v, pc (execute w sched) = Returned v ->
        EvReturn ∈ trace (execute w sched)
        /\ forall p, finished (thread (execute w sched) p) = true).
Proof.
  unfold execute.
  destruct (order_inv_run Util.stringify_shell_arguments
              Util.split_shell_arguments w sched) as [Hc Hn Hs Hf Hj _ _ Hh].
  pose proof (threads_inv_run Util.stringify_shell_arguments
                Util.split_shell_arguments w sched) as Hth.
  repeat split; auto.
  - apply Hh. rewrite H. simpl. repeat constructor.
  - unfold threads_inv in Hth. rewrite H in Hth. destruct p; apply Hth.
Qed.

Lemma execute_event_order_witness :
  EvReturn ∈ trace (execute (world_echo 0) sched_err_first)
  /\ forall p, finished (thread (execute (world_echo 0) sched_err_first) p) = true.
Proof.
  destruct (execute_event_order (world_echo 0) sched_err_first)
    as (_ & _ & _ & _ & _ & Hret).
  exact (Hret PyNone eq_refl).
Defined.

(** The order of events on a concrete call, with the error pump ahead. *)
Example execute_event_order_sample :
  trace (execute (world_echo 0) sched_err_first)
  = [EvDebug "echo hi"; EvExec "echo hi"; EvStdinClose;
     EvStart Stdout; EvStart Stderr; EvFinish Stderr; EvFinish Stdout;
     EvJoin Stdout; EvJoin Stderr; EvReturn].
Proof. vm_compute. reflexivity. Qed.

(** C2 as stated fails: a call that runs to its end on a sound session
    hands back [None], no outcome and no exception, even though the
    remote command exited with status 1. *)
Lemma execute_hands_back_none :
  over (execute (world_echo 1) (round_robin 12)) = true
  /\ pc (execute (world_echo 1) (round_robin 12)) = Returned PyNone
  /\ ~ hands_back_outcome (execute (world_echo 1) (round_robin 12)).
Proof.
  assert (pc (execute (world_echo 1) (round_robin 12)) = Returned PyNone) as Hpc
    by (vm_compute; reflexivity).
  split; [vm_compute; reflexivity|split; [exact Hpc|]].
  unfold hands_back_outcome. rewrite Hpc.
  intros [[status H]|[e H]]; discriminate H.
Qed.

(** C2, amended: every call comes to its end under a fair schedule, and a
    call that is over has raised the exception of the composition, or
    [TransportError] when the transport refused the channel, or else has
    returned [None]; which of these depends on the command, the user, the
    shell, the [sudo] flag and the transport only, not on the exit status
    of the remote command. *)
Theorem execute_returns_none (w : World) (sched : list Tid) :
  over (execute w (sched ++ round_robin (fuel w (execute w sched)))) = true
  /\ (over (execute w sched) = true ->
      pc (execute w sched)
      = match command_line Util.stringify_shell_arguments Util.split_shell_arguments
                (w_sudo w) (w_command w) (w_user w) (w_shell w) with
        | inl e => Raised e
        | inr _ => if w_transport_ok w then Returned PyNone else Raised TransportError
        end).
Proof.
  split.
  - apply run_ends.
  - apply over_result.
Qed.

Lemma execute_returns_none_witness :
  over (execute (world_echo 1) (round_robin 12)) = true
  /\ pc (execute (world_echo 1) (round_robin 12)) = Returned PyNone.
Proof.
  split; [vm_compute; reflexivity|].
  exact (proj2 (execute_returns_none (world_echo 1) (round_robin 12)) eq_refl).
Defined.

(** C4: when the command writes the lines [outs] on standard output and
    [errs] on standard error, and both sinks take what they are given,
    then whatever the interleaving, once [execute] has returned the
    stdout sink holds exactly the lines [outs], in order and at [INFO],
    and the stderr sink exactly the lines [errs], in order and at
    [ERROR]; both pumps are finished by then, so the counts are final. *)
Theorem sinks_receive_all_lines (w : World) (sched : list Tid)
    (outs errs : list string) (v : PyValue) :
  w_stdout w = Line <$> outs ->
  w_stderr w = Line <$> errs ->
  w_stdout_capacity w = None ->
  w_stderr_capacity w = None ->
  pc (execute w sched) = Returned v ->
  exists pmo pme,
    th_out (execute w sched) = Started pmo
    /\ th_err (execute w sched) = Started pme
    /\ phase pmo = Finished None /\ phase pme = Finished None
    /\ records pmo = (fun l => (INFO, l)) <$> outs
    /\ records pme = (fun l => (ERROR, l)) <$> errs
    /\ length (records pmo) = length outs
    /\ length (records pme) = length errs.
Proof.
  intros Hout Herr Hco Hce Hpc. unfold execute in *.
  pose proof (threads_inv_run Util.stringify_shell_arguments
                Util.split_shell_arguments w sched) as Hth.
  pose proof (pumps_inv_run Util.stringify_shell_arguments
                Util.split_shell_arguments w sched) as Hp.
  unfold threads_inv in Hth. rewrite Hpc in Hth. destruct Hth as [Hfo Hfe].
  unfold finished in Hfo, Hfe.
  destruct (th_out _) as [|pmo] eqn:Eo; [discriminate|].
  destruct (th_err _) as [|pme] eqn:Ee; [discriminate|].
  pose proof (Hp Stdout pmo Eo) as Ho. pose proof (Hp Stderr pme Ee) as He.
  unfold pump_inv in Ho, He. simpl in Ho, He.
  rewrite Hout, Hco, drain_lines in Ho. rewrite Herr, Hce, drain_lines in He.
  destruct (phase pmo) eqn:Epo; try discriminate.
  destruct (phase pme) eqn:Epe; try discriminate.
  destruct Ho as [[= Hro ->] _]. destruct He as [[= Hre ->] _].
  exists pmo, pme. rewrite Hro, Hre, !length_fmap. auto 10.
Qed.

Lemma sinks_receive_all_lines_witness :
  exists pmo pme,
    th_out (execute (world_echo 0) sched_err_first) = Started pmo
    /\ th_err (execute (world_echo 0) sched_err_first) = Started pme
    /\ phase pmo = Finished None /\ phase pme = Finished None
    /\ records pmo = [(INFO, "hi")]
    /\ records pme = [(ERROR, "warning")]
    /\ length (records pmo) = 1
    /\ length (records pme) = 1.
Proof.
  exact (sinks_receive_all_lines (world_echo 0) sched_err_first
           ["hi"] ["warning"] PyNone eq_refl eq_refl eq_refl eq_refl eq_refl).
Defined.

(** C5 as stated fails: reading standard output breaks after the first
    line, the output pump ends with that I/O error, and the finished call
    returns [None] all the same; nothing is raised to the caller. *)
Lemma pump_failure_not_raised :
  over (execute world_broken_stdout (round_robin 12)) = true
  /\ pc (execute world_broken_stdout (round_robin 12)) = Returned PyNone
  /\ ~ pump_failure_raised (execute world_broken_stdout (round_robin 12)).
Proof.
  assert (pc (execute world_broken_stdout (round_robin 12)) = Returned PyNone) as Hpc
    by (vm_compute; reflexivity).
  split; [vm_compute; reflexivity|split; [exact Hpc|]].
  intros Hraised.
  destruct (Hraised Stdout pump_broken_stdout StreamIOError) as [e' He'].
  - vm_compute. reflexivity.
  - vm_compute. reflexivity.
  - reflexivity.
  - rewrite Hpc in He'. discriminate He'.
Qed.

(** C5, amended: an exception met by a pump ends that pump alone, after
    the sink was released and the stream closed, with the records logged
    up to the failure; [execute] never raises it: it waits for both pumps
    and returns [None].  The other pump ends as its own stream and sink
    make it end. *)
Theorem pump_failure_stays_in_pump (w : World) (sched : list Tid)
    (p : Stream) (pm : Pump) (e : PyExn) :
  thread (execute w sched) p = Started pm ->
  phase pm = Finished (Some e) ->
  (records pm, Some e) = log_file (level_of p) (w_capacity w p) (w_stream w p)
  /\ released pm = 1 /\ closed pm = 1
  /\ (forall e', pc (execute w sched) <> Raised e')
  /\ (over (execute w sched) = true -> pc (execute w sched) = Returned PyNone)
  /\ (forall q pmq eq,
        thread (execute w sched) q = Started pmq -> phase pmq = Finished eq ->
        (records pmq, eq) = log_file (level_of q) (w_capacity w q) (w_stream w q)).
Proof.
  intros Hp He. unfold execute, log_file in *.
  pose proof (pumps_inv_run Util.stringify_shell_arguments
                Util.split_shell_arguments w sched) as Hpumps.
  destruct (line_inv_run Util.stringify_shell_arguments
              Util.split_shell_arguments w sched) as (Hpc & _ & Hst).
  specialize (Hst p pm Hp).
  pose proof (Hpumps p pm Hp) as Hinv. unfold pump_inv in Hinv.
  rewrite He in Hinv. destruct Hinv as (Hd & Hr & Hc).
  repeat split; try assumption.
  - intros e' He'. rewrite He' in Hpc. congruence.
  - intros Hover. rewrite <- Hst. apply over_result, Hover.
  - intros q pmq eq Hq Hph. pose proof (Hpumps q pmq Hq) as Hinv.
    unfold pump_inv in Hinv. rewrite Hph in Hinv. apply Hinv.
Qed.

Lemma pump_failure_stays_in_pump_witness :
  thread (execute world_broken_stdout (round_robin 12)) Stdout
  = Started pump_broken_stdout
  /\ phase pump_broken_stdout = Finished (Some StreamIOError)
  /\ released pump_broken_stdout = 1 /\ closed pump_broken_stdout = 1
  /\ (forall e', pc (execute world_broken_stdout (round_robin 12)) <> Raised e')
  /\ pc (execute world_broken_stdout (round_robin 12)) = Returned PyNone.
Proof.
  split; [vm_compute; reflexivity|]. split; [reflexivity|].
  destruct (pump_failure_stays_in_pump world_broken_stdout (round_robin 12) Stdout
              pump_broken_stdout StreamIOError eq_refl eq_refl)
    as (_ & Hr & Hc & Hn & Hpc & _).
  exact (conj Hr (conj Hc (conj Hn (Hpc eq_refl)))).
Defined.

(** C9: on every way out of [log_file] the sink is released exactly once:
    at no time has a pump released its sink more than once, a pump that
    has finished, with or without an exception from the loop, has
    released it once, and when [execute] is over every pump it started
    has finished. *)
Theorem sink_released_once (w : World) (sched : list Tid) (p : Stream) (pm : Pump) :
  thread (execute w sched) p = Started pm ->
  released pm <= 1
  /\ (forall e, phase pm = Finished e -> released pm = 1)
  /\ (over (execute w sched) = true -> exists e, phase pm = Finished e).
Proof.
  intros Hp. unfold execute in *.
  pose proof (pumps_inv_run Util.stringify_shell_arguments
                Util.split_shell_arguments w sched p pm Hp) as Hinv.
  pose proof (threads_inv_run Util.stringify_shell_arguments
                Util.split_shell_arguments w sched) as Hth.
  unfold pump_inv in Hinv. repeat split.
  - destruct (phase pm); [subst pm; simpl; lia|..];
      destruct Hinv as (_ & -> & _); lia.
  - intros e He. rewrite He in Hinv. apply Hinv.
  - unfold over, threads_inv in *. intros Hover.
    destruct (pc _); try discriminate; destruct Hth as [Ho He].
    + unfold finished in Ho, He.
      destruct p; simpl in Hp; rewrite Hp in *;
        destruct (phase pm); try discriminate; eauto.
    + destruct p; simpl in Hp; congruence.
Qed.

Lemma sink_released_once_witness :
  thread (execute world_broken_stdout (round_robin 12)) Stdout
  = Started pump_broken_stdout
  /\ released pump_broken_stdout <= 1
  /\ (forall e, phase pump_broken_stdout = Finished e -> released pump_broken_stdout = 1)
  /\ (over (execute world_broken_stdout (round_robin 12)) = true ->
      exists e, phase pump_broken_stdout = Finished e).
Proof.
  split; [vm_compute; reflexivity|].
  exact (sink_released_once world_broken_stdout (round_robin 12) Stdout
           pump_broken_stdout eq_refl).
Defined.

(** ** Elevation with a shell *)

(** C8: with a user and a shell, under either strategy, the composed
    tokens are the prefix, then ["-s"; shell], then the suffix; the line
    of the call is the stringification of that token vector, and it is
    this line, a single string, that every run submits to the transport. *)
Theorem shell_flag_between_prefix_and_suffix :
  (forall stringify split sudo command user shell,
      compose_command stringify split sudo command (Some user) (Some shell)
      = result_map
          (fun suffix => CmdList (spec_prefix sudo user ++ ["-s"; shell] ++ suffix))
          (spec_suffix stringify split sudo command))
  /\ (forall stringify split sudo command user shell,
         command_line stringify split sudo command (Some user) (Some shell)
         = result_map
             (fun suffix =>
                stringify (CmdList (spec_prefix sudo user ++ ["-s"; shell] ++ suffix)))
             (spec_suffix stringify split sudo command))
  /\ (forall w sched l,
         EvExec l ∈ trace (execute w sched) ->
         command_line Util.stringify_shell_arguments Util.split_shell_arguments
           (w_sudo w) (w_command w) (w_user w) (w_shell w) = inr l)
  /\ command_line Util.stringify_shell_arguments Util.split_shell_arguments
       true (CmdList ["echo"; "hi"]) (Some "alice") (Some "/bin/sh")
     = inr "sudo -u alice -s /bin/sh echo hi"
  /\ command_line Util.stringify_shell_arguments Util.split_shell_arguments
       false (CmdList ["echo"; "hi"]) (Some "bob") (Some "/bin/sh")
     = inr "su bob -s /bin/sh -c 'echo hi'".
Proof.
  assert (forall stringify split sudo command user shell,
             compose_command stringify split sudo command (Some user) (Some shell)
             = result_map
                 (fun suffix => CmdList (spec_prefix sudo user ++ ["-s"; shell] ++ suffix))
                 (spec_suffix stringify split sudo command)) as Htokens.
  { intros stringify split sudo command user shell.
    apply (compose_elevation_plan stringify split sudo command user (Some shell)). }
  split; [exact Htokens|split; [|split; [|split]]].
  - intros. rewrite command_line_stringifies, Htokens, result_map_map. reflexivity.
  - intros w sched l Hl.
    destruct (line_inv_run Util.stringify_shell_arguments
                Util.split_shell_arguments w sched) as (_ & Hex & _).
    apply Hex, Hl.
  - vm_compute. reflexivity.
  - vm_compute. reflexivity.
Qed.

(** ** Physical layer of the WiFi channel *)

(** C10: the constructor sets exactly one of the two frequency-selection
    attributes and leaves the other as the default helper has it.  With a
    frequency that counts as true it sets "Frequency" to it, and the
    channel argument has no effect on the helper; with no frequency, or
    with frequency 0, it sets "ChannelNumber" to the channel argument. *)
Theorem frequency_or_channel_number (Double : Type)
    (Default : gmap string (WiFi.AttributeValue Double))
    (frequency : option Z) (channel channel_width antennas : Z) (tx_power : Double) :
  (WiFi.truthy frequency = false <-> frequency = None \/ frequency = Some 0%Z)
  /\ match frequency with
     | Some f =>
         if WiFi.truthy frequency
         then
           WiFi.wifi_phy_helper Double Default frequency channel channel_width
             antennas tx_power !! "Frequency" = Some (WiFi.UintegerValue f)
           /\ WiFi.wifi_phy_helper Double Default frequency channel channel_width
                antennas tx_power !! "ChannelNumber" = Default !! "ChannelNumber"
           /\ forall channel',
               WiFi.wifi_phy_helper Double Default frequency channel' channel_width
                 antennas tx_power
               = WiFi.wifi_phy_helper Double Default frequency channel channel_width
                   antennas tx_power
         else
           WiFi.wifi_phy_helper Double Default frequency channel channel_width
             antennas tx_power !! "ChannelNumber" = Some (WiFi.UintegerValue channel)
           /\ WiFi.wifi_phy_helper Double Default frequency channel channel_width
                antennas tx_power !! "Frequency" = Default !! "Frequency"
     | None =>
         WiFi.wifi_phy_helper Double Default frequency channel channel_width
           antennas tx_power !! "ChannelNumber" = Some (WiFi.UintegerValue channel)
         /\ WiFi.wifi_phy_helper Double Default frequency channel channel_width
              antennas tx_power !! "Frequency" = Default !! "Frequency"
     end.
Proof.
  split.
  - destruct frequency as [f|]; simpl.
    + rewrite negb_false_iff, Z.eqb_eq. split; [intros ->; auto|].
      intros [?|[= ->]]; [discriminate|reflexivity].
    + split; auto.
  - unfold WiFi.wifi_phy_helper, WiFi.Set_.
    destruct frequency as [f|]; [destruct (WiFi.truthy (Some f))|];
      repeat split;
      repeat (rewrite lookup_insert_ne by discriminate);
      rewrite ?lookup_insert_eq; reflexivity.
Qed.

(** * Further properties of the executor *)

Section MoreRunFacts.

Variable stringify : Command -> string.
Variable split : Command -> Result (list string).
Variable w : World.

Local Abbreviation step_of := (step_of stringify split w).
Local Abbreviation main_step := (main_step stringify split w).
Local Abbreviation thread_step := (thread_step w).
Local Abbreviation sched_step := (sched_step stringify split w).
Local Abbreviation run_from := (run_from stringify split w).
Local Abbreviation run := (run stringify split w).
Local Abbreviation line_inv := (line_inv stringify split w).
Local Abbreviation early_inv := (early_inv stringify split w).
Local Abbreviation main_inv := (main_inv stringify split w).
Local Abbreviation the_line :=
  (command_line stringify split (w_sudo w) (w_command w) (w_user w) (w_shell w)).

(** A property of pumps that holds of a fresh pump and is kept by every
    step of [log_file] holds of every started pump in every run. *)
Lemma pump_invariant_run (I : Level -> option nat -> list Item -> Pump -> Prop) :
  (forall level capacity stream, I level capacity stream (new_pump stream)) ->
  (forall level capacity stream pm pm',
      I level capacity stream pm -> pump_step level capacity pm = Some pm' ->
      I level capacity stream pm') ->
  forall sched p pm,
    thread (run sched) p = Started pm ->
    I (level_of p) (w_capacity w p) (w_stream w p) pm.
Proof.
  intros Hnew Hkeep sched.
  apply (run_invariant stringify split w
           (fun s => forall p pm, thread s p = Started pm ->
                       I (level_of p) (w_capacity w p) (w_stream w p) pm)).
  - intros [] pm; discriminate.
  - intros s t s' Hinv Hstep. destruct t as [|p].
    + unfold step_of, main_step in Hstep.
      destruct (pc s) eqn:Hpc; simpl in Hstep;
        repeat case_match; try discriminate;
        injection Hstep as <-; intros [] pm'; simpl; intros Hpm';
        try (apply (Hinv Stdout); exact Hpm');
        try (apply (Hinv Stderr); exact Hpm');
        injection Hpm' as <-; apply Hnew.
    + apply thread_step_inv in Hstep as (pm & pm' & Hp & Hpm & ->).
      intros q pmq. rewrite thread_set_thread.
      destruct (decide (p = q)) as [<-|Hne].
      * intros [= <-]. eapply Hkeep; [apply Hinv|]; eassumption.
      * apply Hinv.
Qed.

Lemma sink_inv_new level capacity stream :
  sink_inv level capacity stream (new_pump stream).
Proof.
  exists []. simpl. repeat split.
  - apply prefix_nil.
  - intros k _. lia.
Qed.

Lemma sink_inv_step level capacity stream pm pm' :
  sink_inv level capacity stream pm ->
  pump_step level capacity pm = Some pm' ->
  sink_inv level capacity stream pm'.
Proof.
  unfold sink_inv, pump_step. intros (ls & Hrec & Hpre & Hph & Hcap) Hstep.
  destruct (phase pm) eqn:Ephase.
  - injection Hstep as <-. exists ls. simpl. auto.
  - destruct (rest pm) as [|[l|] r] eqn:Erest.
    + injection Hstep as <-. exists ls. simpl. auto.
    + destruct (sink_accepts capacity (records pm)) eqn:Eacc.
      * injection Hstep as <-. exists (ls ++ [l]). simpl.
        rewrite Hrec, !fmap_app, <- app_assoc. simpl.
        split; [reflexivity|]. split; [|split; [exact Hph|]].
        -- exists r. rewrite <- app_assoc. exact Hph.
        -- intros k ->. simpl in Eacc. apply bool_decide_eq_true in Eacc.
           rewrite Hrec, length_fmap in Eacc. rewrite length_app. simpl. lia.
      * injection Hstep as <-. exists ls. simpl. auto.
    + injection Hstep as <-. exists ls. simpl. auto.
  - injection Hstep as <-. exists ls. simpl. auto.
  - injection Hstep as <-. exists ls. simpl. auto.
  - discriminate.
Qed.

Lemma early_inv_step s t s' :
  threads_inv s -> line_inv s -> early_inv s -> step_of t s = Some s' -> early_inv s'.
Proof.
  intros Hth (Hline & _ & _) Hearly Hstep. destruct t as [|p].
  - unfold step_of, main_step in Hstep.
    unfold early_inv in Hearly. cbv zeta in Hline, Hearly.
    unfold expected_result in Hline.
    destruct (pc s) eqn:Hpc; simpl in Hstep;
      repeat case_match; try discriminate;
      injection Hstep as <-; unfold early_inv; cbv zeta; simpl;
      rewrite ?app_nil_r, ?Hearly; simpl; eauto 10.
  - apply thread_step_inv in Hstep as (pm & pm' & Hp & Hpm & ->).
    unfold early_inv in *. cbv zeta in *. rewrite pc_set_thread.
    unfold threads_inv in Hth.
    destruct (pc s); try exact Hearly;
      destruct Hth as [Ho He]; destruct p; simpl in Hp; congruence.
Qed.

Lemma early_inv_run sched : early_inv (run sched).
Proof.
  cut (threads_inv (run sched) /\ line_inv (run sched) /\ early_inv (run sched));
    [tauto|].
  apply run_invariant.
  - split; [split; reflexivity|]. split; [|reflexivity].
    apply (line_inv_run stringify split w []).
  - intros s t s' (Hth & Hl & He) Hstep.
    split; [|split];
      eauto using threads_inv_step, line_inv_step, early_inv_step.
Qed.

Lemma main_events_snoc tr ev :
  main_events (tr ++ [ev]) = main_events tr ++ (if main_event ev then [ev] else []).
Proof. unfold main_events. rewrite List.filter_app. simpl. destruct (main_event ev); reflexivity. Qed.

Lemma finish_count_snoc p tr ev :
  finish_count p (tr ++ [ev])
  = finish_count p tr + (if bool_decide (ev = EvFinish p) then 1 else 0).
Proof.
  unfold finish_count. rewrite List.filter_app, length_app. simpl.
  destruct (bool_decide (ev = EvFinish p)); reflexivity.
Qed.

Lemma main_inv_step s t s' :
  threads_inv s -> line_inv s -> main_inv s -> step_of t s = Some s' -> main_inv s'.
Proof.
  intros Hth (Hline & _ & _) [Hmain Hfin] Hstep. destruct t as [|p].
  - unfold step_of, main_step in Hstep.
    cbv zeta in Hline. unfold expected_result in Hline. unfold threads_inv in Hth.
    destruct (pc s) eqn:Hpc; simpl in Hstep;
      repeat case_match; try discriminate;
      injection Hstep as <-; unfold main_inv; simpl;
      rewrite ?app_nil_r, ?main_events_snoc, ?Hmain; simpl.
    all: repeat match goal with
           | H : the_line = _ |- _ => rewrite H in *
           end.
    all: (split; [reflexivity|]).
    all: intros q; rewrite ?finish_count_snoc; simpl; rewrite ?Nat.add_0_r.
    all: try apply Hfin.
    all: destruct Hth as [Ho He]; pose proof (Hfin q) as Hq;
      destruct q; simpl in *; rewrite ?Ho, ?He in *; exact Hq.
  - apply thread_step_inv in Hstep as (pm & pm' & Hp & Hpm & ->).
    pose proof (pump_step_finished _ _ _ _ Hpm) as Hnf.
    unfold main_inv. rewrite trace_set_thread, pc_set_thread. split.
    + destruct (phase pm'); rewrite ?app_nil_r, ?main_events_snoc; simpl;
        rewrite ?app_nil_r; exact Hmain.
    + intros q. rewrite thread_set_thread.
      pose proof (Hfin q) as Hq.
      destruct (decide (p = q)) as [<-|Hne].
      * rewrite Hp in Hq. simpl in Hq.
        destruct (phase pm); try contradiction;
          destruct (phase pm') eqn:Ephase'; simpl; rewrite ?Ephase';
          rewrite ?app_nil_r, ?finish_count_snoc, ?Hq, ?bool_decide_eq_true_2;
          reflexivity.
      * destruct (phase pm'); rewrite ?app_nil_r, ?finish_count_snoc; try exact Hq.
        rewrite bool_decide_eq_false_2 by congruence. rewrite Nat.add_0_r. exact Hq.
Qed.

Lemma main_inv_run sched : main_inv (run sched).
Proof.
  cut (threads_inv (run sched) /\ line_inv (run sched) /\ main_inv (run sched));
    [tauto|].
  apply run_invariant.
  - split; [split; reflexivity|]. split.
    + apply (line_inv_run stringify split w []).
    + split; [reflexivity|]. intros []; reflexivity.
  - intros s t s' (Hth & Hl & Hm) Hstep.
    split; [|split];
      eauto using threads_inv_step, line_inv_step, main_inv_step.
Qed.



End MoreRunFacts.

(** X1: [log_file] closes its stream only after it has released its sink
    (the [with] statement leaves through the inner exit first), and a pump
    has closed its stream exactly when it has finished, once. *)
Theorem stream_closed_after_release (w : World) (sched : list Tid)
    (p : Stream) (pm : Pump) :
  thread (execute w sched) p = Started pm ->
  closed pm <= released pm
  /\ (closed pm = 1 <-> finished (Started pm) = true)
  /\ (closed pm = 0 <-> finished (Started pm) = false).
Proof.
  intros Hp. unfold execute in Hp.
  pose proof (pumps_inv_run Util.stringify_shell_arguments
                Util.split_shell_arguments w sched p pm Hp) as Hinv.
  unfold pump_inv in Hinv. unfold finished.
  destruct (phase pm); [subst pm; simpl; intuition (try lia; try discriminate)|..];
    destruct Hinv as (_ & -> & ->); intuition (try lia; try discriminate).
Qed.

Lemma stream_closed_after_release_witness :
  closed pump_broken_stdout <= released pump_broken_stdout
  /\ (closed pump_broken_stdout = 1 <-> finished (Started pump_broken_stdout) = true)
  /\ (closed pump_broken_stdout = 0 <-> finished (Started pump_broken_stdout) = false).
Proof.
  exact (stream_closed_after_release world_broken_stdout (round_robin 12) Stdout
           pump_broken_stdout eq_refl).
Defined.

(** X2: at every moment of every run, what a pump's sink holds is the
    lines of a prefix of the pump's stream, in order and at the pump's
    severity, and never more lines than the destination accepts. *)
Theorem sink_holds_prefix (w : World) (sched : list Tid) (p : Stream) (pm : Pump) :
  thread (execute w sched) p = Started pm ->
  exists ls,
    records pm = (fun l => (level_of p, l)) <$> ls
    /\ (Line <$> ls) `prefix_of` w_stream w p
    /\ (forall k, w_capacity w p = Some k -> length (records pm) <= k).
Proof.
  intros Hp. unfold execute in Hp.
  destruct (pump_invariant_run Util.stringify_shell_arguments
              Util.split_shell_arguments w sink_inv sink_inv_new sink_inv_step
              sched p pm Hp) as (ls & Hrec & Hpre & _ & Hcap).
  exists ls. split; [exact Hrec|]. split; [exact Hpre|].
  intros k Hk. rewrite Hrec, length_fmap. apply Hcap, Hk.
Qed.

Lemma sink_holds_prefix_witness :
  thread (execute world_full_stderr_sink (round_robin 12)) Stderr
  = Started {| phase := Finished (Some SinkWriteError); rest := [];
               records := [(ERROR, "warning 1")]; released := 1; closed := 1 |}
  /\ exists ls,
      [(ERROR, "warning 1")] = (fun l => (ERROR, l)) <$> ls
      /\ (Line <$> ls) `prefix_of` [Line "warning 1"; Line "warning 2"]
      /\ (forall k, Some 1 = Some k -> 1 <= k).
Proof.
  assert (thread (execute world_full_stderr_sink (round_robin 12)) Stderr
          = Started {| phase := Finished (Some SinkWriteError); rest := [];
                       records := [(ERROR, "warning 1")]; released := 1; closed := 1 |})
    as Hp by (vm_compute; reflexivity).
  split; [exact Hp|].
  exact (sink_holds_prefix world_full_stderr_sink (round_robin 12) Stderr _ Hp).
Defined.

(** X3: a failure on one stream does not cost the other stream a line:
    when a stream yields lines only and its sink accepts them, its pump
    finishes without an exception and its sink holds all of the lines,
    whatever happens to the other pump. *)
Theorem healthy_stream_fully_logged (w : World) (sched : list Tid)
    (p : Stream) (ls : list string) (pm : Pump) :
  w_stream w p = Line <$> ls ->
  w_capacity w p = None ->
  thread (execute w sched) p = Started pm ->
  finished (Started pm) = true ->
  phase pm = Finished None /\ records pm = (fun l => (level_of p, l)) <$> ls.
Proof.
  intros Hstream Hcap Hp Hfin. unfold execute in Hp.
  pose proof (pumps_inv_run Util.stringify_shell_arguments
                Util.split_shell_arguments w sched p pm Hp) as Hinv.
  unfold pump_inv in Hinv. unfold finished in Hfin.
  rewrite Hstream, Hcap, drain_lines in Hinv.
  destruct (phase pm); try discriminate.
  destruct Hinv as [[= -> ->] _]. auto.
Qed.

Lemma healthy_stream_fully_logged_witness :
  (exists pm, thread (execute world_full_stderr_sink (round_robin 12)) Stderr = Started pm
              /\ phase pm = Finished (Some SinkWriteError))
  /\ exists pm, thread (execute world_full_stderr_sink (round_robin 12)) Stdout = Started pm
                /\ phase pm = Finished None
                /\ records pm = [(INFO, "cc a.c"); (INFO, "cc b.c"); (INFO, "ld")].
Proof.
  assert (thread (execute world_full_stderr_sink (round_robin 12)) Stdout
          = Started {| phase := Finished None; rest := [];
                       records := [(INFO, "cc a.c"); (INFO, "cc b.c"); (INFO, "ld")];
                       released := 1; closed := 1 |})
    as Hp by (vm_compute; reflexivity).
  split.
  - eexists. split; [vm_compute; reflexivity|reflexivity].
  - eexists. split; [exact Hp|].
    exact (healthy_stream_fully_logged world_full_stderr_sink (round_robin 12) Stdout
             ["cc a.c"; "cc b.c"; "ld"] _ eq_refl eq_refl Hp eq_refl).
Defined.

(** X4: when the transport refuses the channel (line 48 raises), nothing
    after line 48 happens in any run: no pump is ever started, the input
    stream is not touched, the only event there can be is the debug record
    of the command line, and a call that is over has raised. *)
Theorem transport_refused_nothing_started (w : World) (sched : list Tid) :
  w_transport_ok w = false ->
  (forall p, thread (execute w sched) p = NotStarted)
  /\ (trace (execute w sched) = []
      \/ exists l,
          trace (execute w sched) = [EvDebug l]
          /\ command_line Util.stringify_shell_arguments Util.split_shell_arguments
               (w_sudo w) (w_command w) (w_user w) (w_shell w) = inr l)
  /\ (over (execute w sched) = true -> exists e, pc (execute w sched) = Raised e).
Proof.
  intros Hno. unfold execute.
  pose proof (threads_inv_run Util.stringify_shell_arguments
                Util.split_shell_arguments w sched) as Hth.
  pose proof (early_inv_run Util.stringify_shell_arguments
                Util.split_shell_arguments w sched) as Hearly.
  destruct (line_inv_run Util.stringify_shell_arguments
              Util.split_shell_arguments w sched) as (Hline & _ & _).
  unfold threads_inv in Hth. unfold early_inv in Hearly. cbv zeta in Hearly, Hline.
  unfold over.
  destruct (pc _) eqn:Hpc;
    try (lazymatch type of Hearly with
         | _ /\ _ => destruct Hearly as [Hok _]; congruence
         end).
  - split; [intros []; apply Hth|]. split; [left; exact Hearly|discriminate].
  - split; [intros []; apply Hth|]. split; [left; exact Hearly|discriminate].
  - split; [intros []; apply Hth|]. split; [right; eauto|discriminate].
  - split; [intros []; apply Hth|]. split; [|eauto].
    destruct Hearly as [[_ Htr]|(l & Hl & _ & _ & Htr)]; [left; exact Htr|right; eauto].
Qed.

Lemma transport_refused_nothing_started_witness :
  (forall p, thread (execute world_no_transport (round_robin 4)) p = NotStarted)
  /\ (trace (execute world_no_transport (round_robin 4)) = []
      \/ exists l,
          trace (execute world_no_transport (round_robin 4)) = [EvDebug l]
          /\ command_line Util.stringify_shell_arguments Util.split_shell_arguments
               false (CmdStr "echo hi") None None = inr l)
  /\ (over (execute world_no_transport (round_robin 4)) = true ->
      exists e, pc (execute world_no_transport (round_robin 4)) = Raised e).
Proof.
  exact (transport_refused_nothing_started world_no_transport (round_robin 4) eq_refl).
Defined.

(** X5: composing the command line can fail on the sudo path only, and
    there it fails exactly when the splitter rejects the stringified
    command, with the splitter's exception; without a user, or with the
    switch-user strategy, every command composes. *)
Theorem composition_fails_only_by_split
    (stringify : Command -> string) (split : Command -> Result (list string))
    (sudo : bool) (command : Command) (user shell : option string) (e : PyExn) :
  command_line stringify split sudo command user shell = inl e
  <-> (sudo = true /\ (exists u, user = Some u)
       /\ split (CmdStr (stringify command)) = inl e).
Proof.
  rewrite command_line_stringifies.
  destruct user as [u|].
  - destruct sudo.
    + rewrite compose_sudo.
      destruct (split (CmdStr (stringify command))) as [e'|toks]; simpl.
      * split; [intros [= ->]; eauto|intros (_ & _ & [= ->]); reflexivity].
      * split; [discriminate|intros (_ & _ & H); discriminate H].
    + rewrite compose_su. simpl.
      split; [discriminate|intros (H & _); discriminate H].
  - rewrite compose_no_user. simpl.
    split; [discriminate|intros (_ & [u Hu] & _); discriminate Hu].
Qed.

(** X6: when composing the command line raises, [execute] raises that
    exception before anything else happens: no record is logged, nothing
    is submitted to the transport, and no pump is started, in any run. *)
Theorem composition_error_before_any_effect (w : World) (sched : list Tid)
    (e : PyExn) :
  command_line Util.stringify_shell_arguments Util.split_shell_arguments
    (w_sudo w) (w_command w) (w_user w) (w_shell w) = inl e ->
  trace (execute w sched) = []
  /\ (forall p, thread (execute w sched) p = NotStarted)
  /\ (pc (execute w sched) = AtCompose \/ pc (execute w sched) = Raised e).
Proof.
  intros Hfail. unfold execute.
  pose proof (threads_inv_run Util.stringify_shell_arguments
                Util.split_shell_arguments w sched) as Hth.
  pose proof (early_inv_run Util.stringify_shell_arguments
                Util.split_shell_arguments w sched) as Hearly.
  destruct (line_inv_run Util.stringify_shell_arguments
              Util.split_shell_arguments w sched) as (Hline & _ & _).
  unfold threads_inv in Hth. unfold early_inv in Hearly. cbv zeta in Hearly, Hline.
  unfold expected_result in Hline. rewrite Hfail in Hline, Hearly.
  destruct (pc _) eqn:Hpc; try discriminate;
    try (lazymatch type of Hearly with
         | _ /\ _ => destruct Hearly as [_ [l Hl]]; discriminate
         end).
  - split; [exact Hearly|]. split; [intros []; apply Hth|left; reflexivity].
  - injection Hline as ->.
    destruct Hearly as [[_ Htr]|(l & Hl & _)]; [|discriminate].
    split; [exact Htr|]. split; [intros []; apply Hth|right; reflexivity].
Qed.

Lemma composition_error_before_any_effect_witness :
  trace (execute world_open_quote (round_robin 3)) = []
  /\ (forall p, thread (execute world_open_quote (round_robin 3)) p = NotStarted)
  /\ (pc (execute world_open_quote (round_robin 3)) = AtCompose
      \/ pc (execute world_open_quote (round_robin 3))
         = Raised (ValueError "No closing quotation")).
Proof.
  exact (composition_error_before_any_effect world_open_quote (round_robin 3)
           (ValueError "No closing quotation") eq_refl).
Defined.



(** X8: in every run the events of [execute] itself are an initial part
    of: debug record of the line, channel opened for the same line, input
    closed, stdout pump started, stderr pump started, stdout pump joined,
    stderr pump joined, return.  So each of them happens at most once and
    in this order; and each pump's thread has ended exactly once if it
    has finished, and not at all otherwise. *)
Theorem execute_events_in_program_order (w : World) (sched : list Tid) :
  main_events (trace (execute w sched))
    `prefix_of`
    canonical (command_line Util.stringify_shell_arguments Util.split_shell_arguments
                 (w_sudo w) (w_command w) (w_user w) (w_shell w))
  /\ forall p,
      finish_count p (trace (execute w sched))
      = if finished (thread (execute w sched) p) then 1 else 0.
Proof.
  destruct (main_inv_run Util.stringify_shell_arguments Util.split_shell_arguments
              w sched) as [Hmain Hfin].
  split; [|exact Hfin].
  unfold execute. rewrite Hmain.
  eexists. symmetry. apply take_drop.
Qed.

(** X9: the interleaving does not show in the result: two runs of the same
    call that are over have ended alike, and each pump has finished with
    the same exception or none, the same records in its sink, one release
    and one close, whatever the two schedules were. *)
Theorem result_independent_of_schedule (w : World) (sched1 sched2 : list Tid) :
  over (execute w sched1) = true ->
  over (execute w sched2) = true ->
  pc (execute w sched1) = pc (execute w sched2)
  /\ forall p,
      (thread (execute w sched1) p = NotStarted
       /\ thread (execute w sched2) p = NotStarted)
      \/ exists pm1 pm2,
          thread (execute w sched1) p = Started pm1
          /\ thread (execute w sched2) p = Started pm2
          /\ phase pm1 = phase pm2 /\ records pm1 = records pm2
          /\ released pm1 = released pm2 /\ closed pm1 = closed pm2.
Proof.
  intros Hover1 Hover2. unfold execute in *.
  pose proof (over_result _ _ _ _ Hover1) as Hpc1.
  pose proof (over_result _ _ _ _ Hover2) as Hpc2.
  split; [congruence|]. intros p.
  pose proof (threads_inv_run Util.stringify_shell_arguments
                Util.split_shell_arguments w sched1) as Hth1.
  pose proof (threads_inv_run Util.stringify_shell_arguments
                Util.split_shell_arguments w sched2) as Hth2.
  pose proof (pumps_inv_run Util.stringify_shell_arguments
                Util.split_shell_arguments w sched1 p) as Hp1.
  pose proof (pumps_inv_run Util.stringify_shell_arguments
                Util.split_shell_arguments w sched2 p) as Hp2.
  unfold threads_inv, over in *. rewrite Hpc1 in *. rewrite Hpc2 in *.
  destruct (expected_result _ _ w); try discriminate.
  - right.
    assert (finished (thread (run Util.stringify_shell_arguments
                                Util.split_shell_arguments w sched1) p) = true) as Hf1
      by (destruct p; apply Hth1).
    assert (finished (thread (run Util.stringify_shell_arguments
                                Util.split_shell_arguments w sched2) p) = true) as Hf2
      by (destruct p; apply Hth2).
    unfold finished in Hf1, Hf2.
    destruct (thread _ p) as [|pm1]; [discriminate|].
    destruct (thread _ p) as [|pm2]; [discriminate|].
    specialize (Hp1 pm1 eq_refl). specialize (Hp2 pm2 eq_refl).
    unfold pump_inv in Hp1, Hp2.
    destruct (phase pm1) eqn:E1; try discriminate.
    destruct (phase pm2) eqn:E2; try discriminate.
    destruct Hp1 as (Hd1 & Hr1 & Hc1). destruct Hp2 as (Hd2 & Hr2 & Hc2).
    rewrite <- Hd1 in Hd2. injection Hd2 as Hrec He.
    exists pm1, pm2. rewrite E1, E2, Hr1, Hr2, Hc1, Hc2, Hrec, He. auto 10.
  - left. destruct p; split; first [apply Hth1 | apply Hth2].
Qed.

Lemma result_independent_of_schedule_witness :
  pc (execute (world_echo 0) (round_robin 12))
  = pc (execute (world_echo 0) sched_err_first)
  /\ trace (execute (world_echo 0) (round_robin 12))
     <> trace (execute (world_echo 0) sched_err_first).
Proof.
  split.
  - exact (proj1 (result_independent_of_schedule (world_echo 0) (round_robin 12)
                    sched_err_first eq_refl eq_refl)).
  - vm_compute. discriminate.
Defined.

(** * Further properties of the WiFi channel *)

Section NodeFacts.

Variable Mac : Type.
Variable mac_address : WiFi.Interface -> Mac.
Variable prefixlen : Z.

Local Abbreviation add_node := (WiFi.add_node Mac mac_address prefixlen).
Local Abbreviation add_nodes := (WiFi.add_nodes Mac mac_address prefixlen).

(** What one pass of the loop body does. *)
Lemma add_node_spec i nd st st' :
  add_node i nd st = Some st' ->
  exists calls addr,
    WiFi.interfaces st'
    = WiFi.interfaces st
      ++ [{| WiFi.node := nd; WiFi.ns3_device := i; WiFi.address := addr |}]
    /\ WiFi.effects st' = WiFi.effects st ++ calls
    /\ WiFi.mac_settings Mac calls
       = [(i, mac_address {| WiFi.node := nd; WiFi.ns3_device := i;
                             WiFi.address := addr |})]
    /\ if WiFi.wants_ip_stack nd
       then exists a,
           WiFi.pool st = a :: WiFi.pool st'
           /\ addr = Some (a, prefixlen)
           /\ WiFi.ipv4 st' = {[WiFi.ns3_node nd]} ∪ WiFi.ipv4 st
           /\ WiFi.installs Mac calls
              = (if bool_decide (WiFi.ns3_node nd ∈ WiFi.ipv4 st)
                 then [] else [WiFi.ns3_node nd])
       else WiFi.pool st' = WiFi.pool st /\ addr = None
            /\ WiFi.ipv4 st' = WiFi.ipv4 st /\ WiFi.installs Mac calls = [].
Proof.
  unfold WiFi.add_node. intros Hstep.
  destruct (WiFi.wants_ip_stack nd) eqn:Hwants.
  - destruct (WiFi.pool st) as [|a pool'] eqn:Hpool.
    + destruct (bool_decide _); discriminate.
    + destruct (bool_decide (WiFi.ns3_node nd ∈ WiFi.ipv4 st)) eqn:Hin;
        injection Hstep as <-; simpl;
        eexists _, _; (split; [reflexivity|]); (split; [reflexivity|]);
        (split; [reflexivity|]); exists a; repeat split.
      apply bool_decide_eq_true in Hin. apply set_eq. intros x.
      rewrite elem_of_union, elem_of_singleton. split; [auto|].
      intros [->|Hx]; assumption.
  - injection Hstep as <-. simpl.
    eexists _, _. split; [reflexivity|]. split; [reflexivity|].
    split; [reflexivity|]. auto.
Qed.

Lemma installs_app (calls1 calls2 : list (WiFi.Effect Mac)) :
  WiFi.installs Mac (calls1 ++ calls2)
  = WiFi.installs Mac calls1 ++ WiFi.installs Mac calls2.
Proof. apply omap_app. Qed.

Lemma mac_settings_app (calls1 calls2 : list (WiFi.Effect Mac)) :
  WiFi.mac_settings Mac (calls1 ++ calls2)
  = WiFi.mac_settings Mac calls1 ++ WiFi.mac_settings Mac calls2.
Proof. apply omap_app. Qed.

(** What the whole loop does, from index [i] on. *)
Lemma add_nodes_spec nodes : forall i st st',
  add_nodes i nodes st = Some st' ->
  exists new calls,
    WiFi.interfaces st' = WiFi.interfaces st ++ new
    /\ WiFi.effects st' = WiFi.effects st ++ calls
    /\ WiFi.node <$> new = nodes
    /\ WiFi.ns3_device <$> new = seq i (length nodes)
    /\ Forall (fun itf => is_Some (WiFi.address itf)
                          <-> WiFi.wants_ip_stack (WiFi.node itf) = true) new
    /\ omap WiFi.address new
       = (fun a => (a, prefixlen)) <$> take (WiFi.wanting nodes) (WiFi.pool st)
    /\ WiFi.wanting nodes <= length (WiFi.pool st)
    /\ WiFi.pool st' = drop (WiFi.wanting nodes) (WiFi.pool st)
    /\ WiFi.ipv4 st'
       = WiFi.ipv4 st
         ∪ list_to_set (WiFi.ns3_node <$> List.filter WiFi.wants_ip_stack nodes)
    /\ NoDup (WiFi.installs Mac calls)
    /\ (forall n, n ∈ WiFi.installs Mac calls -> n ∉ WiFi.ipv4 st)
    /\ (forall n, n ∈ WiFi.installs Mac calls <->
                  n ∈ WiFi.ns3_node <$> List.filter WiFi.wants_ip_stack nodes
                  /\ n ∉ WiFi.ipv4 st)
    /\ WiFi.mac_settings Mac calls
       = (fun itf => (WiFi.ns3_device itf, mac_address itf)) <$> new.
Proof.
  induction nodes as [|nd nodes IH]; intros i st st' Hrun.
  - injection Hrun as <-. exists [], []. rewrite !app_nil_r. simpl.
    unfold WiFi.wanting. simpl. rewrite ?drop_0, ?union_empty_r_L.
    split_and!; try reflexivity; try lia;
      try apply Forall_nil_2; try apply NoDup_nil_2.
    + intros n Hn. apply elem_of_nil in Hn. contradiction.
    + intros n. rewrite elem_of_nil. tauto.
  - simpl in Hrun.
    destruct (add_node i nd st) as [st1|] eqn:Hstep; [|discriminate].
    destruct (add_node_spec _ _ _ _ Hstep) as (calls1 & addr & Hifs & Heff & Hmac & Hcase).
    destruct (IH _ _ _ Hrun)
      as (new & calls & Hifs' & Heff' & Hnodes & Hdev & Haddr & Hpoolmap & Hle
          & Hpool & Hipv4 & Hnodup & Hfresh & Hwhich & Hmacs).
    exists ({| WiFi.node := nd; WiFi.ns3_device := i; WiFi.address := addr |} :: new),
           (calls1 ++ calls).
    rewrite Hifs', Hifs, Heff', Heff, <- !app_assoc. csimpl.
    rewrite installs_app, mac_settings_app, Hmac, Hmacs, Hnodes, Hdev.
    unfold WiFi.wanting in *. csimpl.
    split; [reflexivity|]. split; [reflexivity|]. split; [reflexivity|].
    split; [reflexivity|].
    destruct (WiFi.wants_ip_stack nd) eqn:Hwants.
    + destruct Hcase as (a & Hp & -> & Hip & Hinst). rewrite Hp in *. csimpl.
      rewrite Hpoolmap, Hpool, Hipv4, Hip, Hinst.
      split; [constructor; [simpl; rewrite Hwants; split; eauto|exact Haddr]|].
      split; [reflexivity|]. split; [lia|]. split; [reflexivity|].
      split; [rewrite (comm_L (∪) {[WiFi.ns3_node nd]} (WiFi.ipv4 st)),
                <- (assoc_L (∪)); reflexivity|].
      split; [|split; [|split; [|reflexivity]]].
      * destruct (bool_decide (WiFi.ns3_node nd ∈ WiFi.ipv4 st)) eqn:Hin;
          [exact Hnodup|]. simpl. constructor; [|exact Hnodup].
        intros Hn. apply Hfresh in Hn. rewrite Hip in Hn.
        apply Hn. apply elem_of_union. left. apply elem_of_singleton. reflexivity.
      * intros n. destruct (bool_decide (WiFi.ns3_node nd ∈ WiFi.ipv4 st)) eqn:Hin; simpl.
        -- intros Hn Hno. apply (Hfresh n Hn). rewrite Hip.
           apply elem_of_union. right. exact Hno.
        -- apply bool_decide_eq_false in Hin.
           rewrite elem_of_cons. intros [->|Hn]; [exact Hin|].
           intros Hno. apply (Hfresh n Hn). rewrite Hip.
           apply elem_of_union. right. exact Hno.
      * intros n. rewrite elem_of_app, Hwhich, Hip, elem_of_cons, not_elem_of_union,
          elem_of_singleton.
        destruct (bool_decide (WiFi.ns3_node nd ∈ WiFi.ipv4 st)) eqn:Hin.
        -- apply bool_decide_eq_true in Hin. rewrite elem_of_nil.
           split; [intros [[]|(Hn & Hne & Hno)]; auto|].
           intros [[->|Hn] Hno]; [contradiction|]. right.
           split; [exact Hn|]. split; [|exact Hno]. intros ->. contradiction.
        -- apply bool_decide_eq_false in Hin. rewrite list_elem_of_singleton.
           split; [intros [->|(Hn & Hne & Hno)]; auto|].
           intros [[->|Hn] Hno]; [auto|].
           destruct (decide (n = WiFi.ns3_node nd)) as [->|Hne]; auto.
    + destruct Hcase as (Hp & -> & Hip & Hinst). rewrite Hp, Hip, Hinst in *. csimpl.
      split; [constructor; [simpl; rewrite Hwants; split;
                            [intros [? ?]; discriminate|discriminate]|exact Haddr]|].
      auto 10.
Qed.


End NodeFacts.

(** X10: besides the frequency selection, the constructor sets the
    channel width, the number of antennas and both spatial-stream limits
    to the number of antennas, and the start and the end of the transmit
    power to the same value; every other attribute of the helper is left
    as the default helper has it. *)
Theorem phy_helper_attributes (Double : Type)
    (Default : gmap string (WiFi.AttributeValue Double))
    (frequency : option Z) (channel channel_width antennas : Z) (tx_power : Double) :
  WiFi.wifi_phy_helper Double Default frequency channel channel_width antennas
    tx_power !! "ChannelWidth" = Some (WiFi.UintegerValue channel_width)
  /\ WiFi.wifi_phy_helper Double Default frequency channel channel_width antennas
       tx_power !! "Antennas" = Some (WiFi.UintegerValue antennas)
  /\ WiFi.wifi_phy_helper Double Default frequency channel channel_width antennas
       tx_power !! "MaxSupportedTxSpatialStreams" = Some (WiFi.UintegerValue antennas)
  /\ WiFi.wifi_phy_helper Double Default frequency channel channel_width antennas
       tx_power !! "MaxSupportedRxSpatialStreams" = Some (WiFi.UintegerValue antennas)
  /\ WiFi.wifi_phy_helper Double Default frequency channel channel_width antennas
       tx_power !! "TxPowerStart" = Some (WiFi.DoubleValue tx_power)
  /\ WiFi.wifi_phy_helper Double Default frequency channel channel_width antennas
       tx_power !! "TxPowerEnd" = Some (WiFi.DoubleValue tx_power)
  /\ forall name,
      name ∉ ["ChannelWidth"; "Frequency"; "ChannelNumber"; "Antennas";
              "MaxSupportedTxSpatialStreams"; "MaxSupportedRxSpatialStreams";
              "TxPowerStart"; "TxPowerEnd"] ->
      WiFi.wifi_phy_helper Double Default frequency channel channel_width antennas
        tx_power !! name = Default !! name.
Proof.
  unfold WiFi.wifi_phy_helper, WiFi.Set_.
  destruct frequency as [f|]; [destruct (WiFi.truthy (Some f))|];
    (split; [|split; [|split; [|split; [|split; [|split]]]]]);
    try (repeat (rewrite lookup_insert_ne by discriminate);
         rewrite lookup_insert_eq; reflexivity);
    intros name Hname;
    repeat (rewrite not_elem_of_cons in Hname; destruct Hname as [? Hname]);
    repeat (rewrite lookup_insert_ne by congruence); reflexivity.
Qed.

(** X11: when the loop over the nodes runs through, it has appended to
    [self.interfaces] exactly one interface per node, in the order of the
    nodes, the one at index [j] bound to node [j] and to device [j] of the
    devices container; an interface has an address exactly when its node
    wants an IP stack; and each device has had its MAC address set once,
    to the MAC address of its interface. *)
Theorem interfaces_one_per_node (Mac : Type) (mac_address : WiFi.Interface -> Mac)
    (prefixlen : Z) (nodes : list WiFi.Node) (st st' : WiFi.Setup Mac) :
  WiFi.install_interfaces Mac mac_address prefixlen nodes st = Some st' ->
  exists new calls,
    WiFi.interfaces st' = WiFi.interfaces st ++ new
    /\ WiFi.effects st' = WiFi.effects st ++ calls
    /\ WiFi.node <$> new = nodes
    /\ WiFi.ns3_device <$> new = seq 0 (length nodes)
    /\ Forall (fun itf => is_Some (WiFi.address itf)
                          <-> WiFi.wants_ip_stack (WiFi.node itf) = true) new
    /\ WiFi.mac_settings Mac calls
       = (fun itf => (WiFi.ns3_device itf, mac_address itf)) <$> new.
Proof.
  intros Hrun. unfold WiFi.install_interfaces in Hrun.
  destruct (add_nodes_spec Mac mac_address prefixlen nodes 0 st st' Hrun)
    as (new & calls & H1 & H2 & H3 & H4 & H5 & _ & _ & _ & _ & _ & _ & _ & H6).
  exists new, calls. auto 10.
Qed.

Lemma interfaces_one_per_node_witness :
  exists new calls,
    WiFi.interfaces WiFi.sample_done = WiFi.interfaces WiFi.sample_setup ++ new
    /\ WiFi.effects WiFi.sample_done = WiFi.effects WiFi.sample_setup ++ calls
    /\ WiFi.node <$> new = WiFi.sample_nodes
    /\ WiFi.ns3_device <$> new = seq 0 (length WiFi.sample_nodes)
    /\ Forall (fun itf => is_Some (WiFi.address itf)
                          <-> WiFi.wants_ip_stack (WiFi.node itf) = true) new
    /\ WiFi.mac_settings unit calls
       = (fun itf => (WiFi.ns3_device itf, tt)) <$> new.
Proof.
  assert (WiFi.install_interfaces unit (fun _ => tt) 24 WiFi.sample_nodes
            WiFi.sample_setup = Some WiFi.sample_done) as sample_runs
    by (vm_compute; reflexivity).
  exact (interfaces_one_per_node unit (fun _ => tt) 24 WiFi.sample_nodes
           WiFi.sample_setup WiFi.sample_done sample_runs).
Defined.



(** X13: the loop installs the IP stack exactly once on each simulator
    node that wants one and has none yet, also when a node occurs more
    than once in the list, and on no other node; afterwards the nodes with
    a stack are those that had one and those that want one. *)
Theorem stack_installed_once_where_missing (Mac : Type)
    (mac_address : WiFi.Interface -> Mac) (prefixlen : Z)
    (nodes : list WiFi.Node) (st st' : WiFi.Setup Mac) :
  WiFi.install_interfaces Mac mac_address prefixlen nodes st = Some st' ->
  WiFi.ipv4 st'
  = WiFi.ipv4 st
    ∪ list_to_set (WiFi.ns3_node <$> List.filter WiFi.wants_ip_stack nodes)
  /\ exists calls,
      WiFi.effects st' = WiFi.effects st ++ calls
      /\ NoDup (WiFi.installs Mac calls)
      /\ forall n,
          n ∈ WiFi.installs Mac calls
          <-> n ∈ WiFi.ns3_node <$> List.filter WiFi.wants_ip_stack nodes
              /\ n ∉ WiFi.ipv4 st.
Proof.
  intros Hrun. unfold WiFi.install_interfaces in Hrun.
  destruct (add_nodes_spec Mac mac_address prefixlen nodes 0 st st' Hrun)
    as (new & calls & _ & H2 & _ & _ & _ & _ & _ & _ & H3 & H4 & _ & H5 & _).
  split; [exact H3|]. exists calls. auto.
Qed.

Lemma stack_installed_once_where_missing_witness :
  WiFi.installs unit (WiFi.effects WiFi.sample_done) = [12]
  /\ exists calls,
      WiFi.effects WiFi.sample_done = WiFi.effects WiFi.sample_setup ++ calls
      /\ NoDup (WiFi.installs unit calls)
      /\ forall n,
          n ∈ WiFi.installs unit calls
          <-> n ∈ WiFi.ns3_node <$> List.filter WiFi.wants_ip_stack WiFi.sample_nodes
              /\ n ∉ WiFi.ipv4 WiFi.sample_setup.
Proof.
  assert (WiFi.install_interfaces unit (fun _ => tt) 24 WiFi.sample_nodes
            WiFi.sample_setup = Some WiFi.sample_done) as sample_runs
    by (vm_compute; reflexivity).
  split; [vm_compute; reflexivity|].
  exact (proj2 (stack_installed_once_where_missing unit (fun _ => tt) 24
                  WiFi.sample_nodes WiFi.sample_setup WiFi.sample_done sample_runs)).
Defined.

(** X14: [prepare] enables one capture per interface of the channel, in
    their order, each on the interface's own device, promiscuous and with
    an explicit file name.  A file name that is not absolute lands below
    the log directory; an absolute one replaces the directory. *)
Theorem prepare_one_capture_per_interface
    (pcap_file_name : WiFi.Interface -> string) (log_directory : string)
    (ifs : list WiFi.Interface) :
  length (WiFi.prepare pcap_file_name log_directory ifs) = length ifs
  /\ WiFi.pcap_device <$> WiFi.prepare pcap_file_name log_directory ifs
     = WiFi.ns3_device <$> ifs
  /\ Forall (fun call => WiFi.promiscuous call = true
                         /\ WiFi.explicit_filename call = true)
       (WiFi.prepare pcap_file_name log_directory ifs)
  /\ forall j itf,
      ifs !! j = Some itf ->
      exists call,
        WiFi.prepare pcap_file_name log_directory ifs !! j = Some call
        /\ if WiFi.is_absolute (pcap_file_name itf)
           then WiFi.pcap_path call = pcap_file_name itf
           else WiFi.pcap_path call = log_directory +:+ pcap_file_name itf
                \/ WiFi.pcap_path call
                   = log_directory +:+ "/" +:+ pcap_file_name itf.
Proof.
  unfold WiFi.prepare. split_and!.
  - apply length_fmap.
  - rewrite <- list_fmap_compose. reflexivity.
  - apply Forall_fmap, Forall_true. intros itf. split; reflexivity.
  - intros j itf Hj. eexists. rewrite list_lookup_fmap, Hj. split; [reflexivity|].
    simpl. unfold WiFi.os_path_join.
    destruct (WiFi.is_absolute (pcap_file_name itf)); [reflexivity|].
    destruct (_ || _); auto.
Qed.

(** X15: after the constructor has run on a channel without interfaces,
    [prepare] enables the capture on device 0, 1, ... of the devices
    container, one per node and in the order of the nodes. *)
Theorem prepare_after_init_covers_every_node (Mac : Type)
    (mac_address : WiFi.Interface -> Mac) (pcap_file_name : WiFi.Interface -> string)
    (prefixlen : Z) (log_directory : string)
    (nodes : list WiFi.Node) (st st' : WiFi.Setup Mac) :
  WiFi.interfaces st = [] ->
  WiFi.install_interfaces Mac mac_address prefixlen nodes st = Some st' ->
  WiFi.pcap_device <$> WiFi.prepare pcap_file_name log_directory (WiFi.interfaces st')
  = seq 0 (length nodes).
Proof.
  intros Hnone Hrun. unfold WiFi.install_interfaces in Hrun.
  destruct (add_nodes_spec Mac mac_address prefixlen nodes 0 st st' Hrun)
    as (new & calls & H1 & _ & _ & H4 & _).
  rewrite H1, Hnone. simpl. unfold WiFi.prepare.
  rewrite <- list_fmap_compose. exact H4.
Qed.

Lemma prepare_after_init_covers_every_node_witness :
  WiFi.pcap_device
    <$> WiFi.prepare (fun itf => WiFi.node_name (WiFi.node itf) +:+ ".pcap") "/tmp/log"
          (WiFi.interfaces WiFi.sample_done)
  = [0; 1; 2].
Proof.
  assert (WiFi.install_interfaces unit (fun _ => tt) 24 WiFi.sample_nodes
            WiFi.sample_setup = Some WiFi.sample_done) as sample_runs
    by (vm_compute; reflexivity).
  exact (prepare_after_init_covers_every_node unit (fun _ => tt)
           (fun itf => WiFi.node_name (WiFi.node itf) +:+ ".pcap") 24 "/tmp/log"
           WiFi.sample_nodes WiFi.sample_setup WiFi.sample_done eq_refl sample_runs).
Defined.

(** X16: no two data rates share a value, so the twenty names are twenty
    different rates (none is an alias of another), and the data mode and
    the control mode that the constructor hands to the station manager
    are the same and tell which rate was chosen. *)
Theorem data_rate_values_distinct (r1 r2 : WiFi.WiFiDataRate) :
  (WiFi.value r1 = WiFi.value r2 <-> r1 = r2)
  /\ WiFi.data_mode (WiFi.SetRemoteStationManager r1)
     = WiFi.control_mode (WiFi.SetRemoteStationManager r1)
  /\ (WiFi.data_mode (WiFi.SetRemoteStationManager r1)
      = WiFi.data_mode (WiFi.SetRemoteStationManager r2) <-> r1 = r2).
Proof.
  assert (WiFi.value r1 = WiFi.value r2 <-> r1 = r2) as Hinj.
  { split; [|intros ->; reflexivity].
    destruct r1, r2; intros H; first [reflexivity | discriminate H]. }
  split; [exact Hinj|]. split; [reflexivity|exact Hinj].
Qed.
